(** * Record manager: the dual record store, its computed-value engine,
      the equality/diff utility, nested child assignment and the tagged
      Map/Set serialisation.

    The development follows the TypeScript sources:
    - [ext/diff]         : [diffObjectsDeep], [isEqual]
    - [ext/index]        : [isNullish], [objectMap], [objectKeys]
    - [ext/nest]         : [setNestedChildOnRecord]
    - [ext/persistence]  : [replacer], [reviver], [forceParse]
    - [helpers]          : [isItemWithComputed], [itemWithComputedToRaw]
    - [recordManager]    : the stores and the manager operations.

    JavaScript values are trees.  Numbers are the integers plus [NaN];
    objects are association lists in insertion order (the engine's
    reordering of integer-like keys is not modelled, no operation below
    depends on it); array holes read as [undefined].  The stores and the
    per-record tables of watches are plain objects, so a read of a key
    they do not own answers the function [Object.prototype] has under
    that name, if there is one (see [inherited_member]). *)

From Stdlib Require Import ZArith List String Ascii Bool Lia Arith DecimalString.
From Stdlib Require Import DecimalNat.
Import ListNotations.
Open Scope string_scope.

(* ================================================================== *)
(** ** JavaScript values *)

Unset Elimination Schemes.
Inductive value : Type :=
| VUndef
| VNull
| VBool (b : bool)
| VNum (n : Z)
| VNaN
| VStr (s : string)
| VArr (l : list value)
| VObj (o : list (string * value))
| VMap (m : list (value * value))
| VSet (l : list value)
| VFun (name : string).
Set Elimination Schemes.

(** [VFun name] is a built-in function, told apart by its name; the only
    functions that the stores can answer are the members of
    [Object.prototype]. *)

(** A plain object: own enumerable properties, in insertion order. *)
Definition obj : Type := list (string * value).

Section ValueInduction.
Variable P : value -> Prop.
Hypothesis Hundef : P VUndef.
Hypothesis Hnull : P VNull.
Hypothesis Hbool : forall b, P (VBool b).
Hypothesis Hnum : forall n, P (VNum n).
Hypothesis Hnan : P VNaN.
Hypothesis Hstr : forall s, P (VStr s).
Hypothesis Harr : forall l, Forall P l -> P (VArr l).
Hypothesis Hobj : forall o, Forall (fun kv => P (snd kv)) o -> P (VObj o).
Hypothesis Hmap :
    forall m, Forall (fun kv => P (fst kv) /\ P (snd kv)) m -> P (VMap m).
Hypothesis Hset : forall l, Forall P l -> P (VSet l).
Hypothesis Hfun : forall name, P (VFun name).

Fixpoint value_ind (v : value) : P v :=
    match v as v0 return P v0 with
    | VUndef => Hundef
    | VNull => Hnull
    | VBool b => Hbool b
    | VNum n => Hnum n
    | VNaN => Hnan
    | VStr s => Hstr s
    | VArr l =>
        Harr l ((fix go (l : list value) : Forall P l :=
                 match l with
                 | [] => Forall_nil _
                 | x :: r => Forall_cons x (value_ind x) (go r)
                 end) l)
    | VObj o =>
        Hobj o ((fix go (o : list (string * value))
                 : Forall (fun kv => P (snd kv)) o :=
                 match o with
                 | [] => Forall_nil _
                 | kv :: r =>
                     @Forall_cons _ (fun kv => P (snd kv)) kv r
                       (value_ind (snd kv)) (go r)
                 end) o)
    | VMap m =>
        Hmap m ((fix go (m : list (value * value))
                 : Forall (fun kv => P (fst kv) /\ P (snd kv)) m :=
                 match m with
                 | [] => Forall_nil _
                 | kv :: r =>
                     @Forall_cons _ (fun kv => P (fst kv) /\ P (snd kv)) kv r
                       (conj (value_ind (fst kv)) (value_ind (snd kv))) (go r)
                 end) m)
    | VSet l =>
        Hset l ((fix go (l : list value) : Forall P l :=
                 match l with
                 | [] => Forall_nil _
                 | x :: r => Forall_cons x (value_ind x) (go r)
                 end) l)
    | VFun name => Hfun name
    end.
End ValueInduction.

(* ================================================================== *)
(** ** Objects used as maps

    [lookup] reads the first binding of a key, [obj_set] is the assignment
    [o[k] = v] (an existing key keeps its position, a new key is appended)
    and [obj_delete] is [delete o[k]]. *)

Section Objects.
Context {A : Type}.

Fixpoint lookup (k : string) (o : list (string * A)) : option A :=
    match o with
    | [] => None
    | (k', v) :: r => if String.eqb k k' then Some v else lookup k r
    end.

Fixpoint obj_set (k : string) (v : A) (o : list (string * A))
    : list (string * A) :=
    match o with
    | [] => [(k, v)]
    | (k', v') :: r =>
        if String.eqb k k' then (k, v) :: r else (k', v') :: obj_set k v r
    end.

Definition obj_delete (k : string) (o : list (string * A))
    : list (string * A) :=
    filter (fun kv => negb (String.eqb k (fst kv))) o.

Definition has_key (k : string) (o : list (string * A)) : bool :=
    match lookup k o with Some _ => true | None => false end.

(** Number of rows of [o] bound to the key [k]. *)
Definition count_key (k : string) (o : list (string * A)) : nat :=
    List.length (filter (fun kv => String.eqb k (fst kv)) o).

(** [Object.fromEntries]: later bindings of a key win, in place. *)
Definition fromEntries (es : list (string * A)) : list (string * A) :=
    fold_left (fun o kv => obj_set (fst kv) (snd kv) o) es [].
End Objects.

Definition objectKeys {A : Type} (o : list (string * A)) : list string :=
  map fst o.

(** [new Set(keys)] on strings: first occurrences, in order. *)
Fixpoint dedup (seen l : list string) : list string :=
  match l with
  | [] => []
  | k :: r =>
      if existsb (String.eqb k) seen then dedup seen r
      else k :: dedup (k :: seen) r
  end.

(* ================================================================== *)
(** ** Primitive operations of the language *)

(** [isNullish] of [ext/index]. *)
Definition isNullish (v : value) : bool :=
  match v with
  | VUndef | VNull => true
  | _ => false
  end.

(** [a ?? b]. *)
Definition nullish_or (a b : value) : value :=
  if isNullish a then b else a.

Inductive jstype : Type :=
| TUndefined | TObject | TBoolean | TNumber | TString | TFunction.

Definition jstype_eqb (a b : jstype) : bool :=
  match a, b with
  | TUndefined, TUndefined | TObject, TObject | TBoolean, TBoolean
  | TNumber, TNumber | TString, TString | TFunction, TFunction => true
  | _, _ => false
  end.

Definition typeof (v : value) : jstype :=
  match v with
  | VUndef => TUndefined
  | VNull | VArr _ | VObj _ | VMap _ | VSet _ => TObject
  | VBool _ => TBoolean
  | VNum _ | VNaN => TNumber
  | VStr _ => TString
  | VFun _ => TFunction
  end.

(** [typeof v === 'object' && v !== null]. *)
Definition is_object (v : value) : bool :=
  match v with
  | VArr _ | VObj _ | VMap _ | VSet _ => true
  | _ => false
  end.

(** Truthiness, as tested by [if (v)], [!v] and [v || d]. *)
Definition truthy (v : value) : bool :=
  match v with
  | VUndef | VNull | VNaN => false
  | VBool b => b
  | VNum n => negb (n =? 0)%Z
  | VStr s => negb (String.eqb s "")
  | VArr _ | VObj _ | VMap _ | VSet _ | VFun _ => true
  end.

(** [a === b] where at least one side is not an object.  Two objects are
    compared by reference in the language; every use below is guarded so
    that this case is never asked.  A built-in function is the same as
    itself only. *)
Definition strict_eq (a b : value) : bool :=
  match a, b with
  | VUndef, VUndef => true
  | VNull, VNull => true
  | VBool x, VBool y => Bool.eqb x y
  | VNum x, VNum y => (x =? y)%Z
  | VStr x, VStr y => String.eqb x y
  | VFun x, VFun y => String.eqb x y
  | _, _ => false
  end.

(** The function members of [Object.prototype]. *)
Definition prototype_functions : list string :=
  ["constructor"; "hasOwnProperty"; "isPrototypeOf"; "propertyIsEnumerable";
   "toLocaleString"; "toString"; "valueOf"; "__defineGetter__";
   "__defineSetter__"; "__lookupGetter__"; "__lookupSetter__"].

(** What a plain object answers under a key it does not own. *)
Definition inherited_member (k : string) : option value :=
  if existsb (String.eqb k) prototype_functions then Some (VFun k) else None.

(** The keys that a plain object holds as data only: no member of
    [Object.prototype] has the name.  The accessor [__proto__], whose
    assignment replaces the prototype instead of adding a key, and the
    flags [__v_...] that the reactivity layer answers itself are left out
    as well: the objects below are not defined at them. *)
Definition own_name (k : string) : bool :=
  match inherited_member k with
  | Some _ => false
  | None => negb (String.eqb k "__proto__" || String.prefix "__v_" k)
  end.


Definition index_key (i : nat) : string :=
  NilZero.string_of_uint (Nat.to_uint i).

(** The canonical array index written by a key, if any. *)
Definition key_index (k : string) : option nat :=
  match NilZero.uint_of_string k with
  | Some d => if String.eqb (index_key (Nat.of_uint d)) k
              then Some (Nat.of_uint d) else None
  | None => None
  end.

Fixpoint index_from (i : nat) (l : list value) : obj :=
  match l with
  | [] => []
  | x :: r => (index_key i, x) :: index_from (S i) r
  end.

Fixpoint string_chars (s : string) : list value :=
  match s with
  | EmptyString => []
  | String c r => VStr (String c EmptyString) :: string_chars r
  end.

(** [{...v}]: the own enumerable properties of [v]. *)
Definition spread (v : value) : obj :=
  match v with
  | VObj o => o
  | VArr l => index_from 0 l
  | VStr s => index_from 0 (string_chars s)
  | _ => []
  end.

(** [v[k]]. *)
Definition get_prop (v : value) (k : string) : value :=
  match v with
  | VObj o => match lookup k o with Some x => x | None => VUndef end
  | VArr l =>
      if String.eqb k "length" then VNum (Z.of_nat (List.length l))
      else match key_index k with
           | Some i => nth i l VUndef
           | None => VUndef
           end
  | VStr s =>
      if String.eqb k "length" then VNum (Z.of_nat (String.length s))
      else match key_index k with
           | Some i => nth i (string_chars s) VUndef
           | None => VUndef
           end
  | _ => VUndef
  end.

(** [v[k]] where a plain object answers the member of [Object.prototype]
    under a key it does not own: the read the source does on the
    objects it compares and on the [computed] member of a record. *)
Definition member (v : value) (k : string) : value :=
  match v with
  | VObj o =>
      match lookup k o with
      | Some x => x
      | None => match inherited_member k with
                | Some f => f
                | None => VUndef
                end
      end
  | _ => get_prop v k
  end.

(** [Array.prototype.join]. *)
Fixpoint join (sep : string) (l : list string) : string :=
  match l with
  | [] => ""
  | [x] => x
  | x :: r => x ++ sep ++ join sep r
  end.

(** [String(v)], which also turns a value into a property key. *)
Fixpoint js_string (v : value) : string :=
  match v with
  | VUndef => "undefined"
  | VNull => "null"
  | VBool true => "true"
  | VBool false => "false"
  | VNum n => NilZero.string_of_int (Z.to_int n)
  | VNaN => "NaN"
  | VStr s => s
  | VArr l =>
      join "," (map (fun x => if isNullish x then "" else js_string x) l)
  | VObj _ => "[object Object]"
  | VMap _ => "[object Map]"
  | VSet _ => "[object Set]"
  | VFun name => "function " ++ name ++ "() { [native code] }"
  end.

(* ================================================================== *)
(** ** [ext/diff]: deep diff and equality *)

(** Nesting depth of a value. *)
Fixpoint depth (v : value) : nat :=
  match v with
  | VArr l => S (fold_right (fun x n => Nat.max (depth x) n) 0 l)
  | VObj o => S (fold_right (fun kv n => Nat.max (depth (snd kv)) n) 0 o)
  | VMap m =>
      S (fold_right
           (fun kv n => Nat.max (Nat.max (depth (fst kv)) (depth (snd kv))) n)
           0 m)
  | VSet l => S (fold_right (fun x n => Nat.max (depth x) n) 0 l)
  | _ => 0
  end.

(** The entry [{ next: value2, prev: value1 }]. *)
Definition diff_entry (value1 value2 : value) : value :=
  VObj [("next", value2); ("prev", value1)].

(** [diffObjectsDeep].  The accumulator [acc] is one object shared by all
    the recursive calls, so it is threaded; the function answers the pair
    of the object it returns and the accumulator.  [fuel] bounds the
    nesting depth that is visited. *)
Fixpoint diffObjectsDeep_fuel (fuel : nat) (_prev _next : value)
  (path : list string) (allowNullish : bool) (acc : obj) : obj * obj :=
  match fuel with
  | O => ([], acc)
  | S fuel' =>
      let prev := nullish_or _prev (VObj []) in
      let next := nullish_or _next (VObj []) in
      let validate (val : value) :=
        if allowNullish && isNullish val then VNull else val in
      let keys :=
        dedup [] (objectKeys (spread prev) ++ objectKeys (spread next))%list in
      let '(result, acc') :=
        fold_left
          (fun (st : obj * obj) (key : string) =>
             let '(result, acc) := st in
             let newPath := (path ++ [key])%list in
             let value1 := validate (member prev key) in
             let value2 := validate (member next key) in
             if is_object value1 && is_object value2 then
               let '(nestedDiff, acc1) :=
                 diffObjectsDeep_fuel fuel' value1 value2 newPath
                   allowNullish acc in
               if (0 <? List.length (objectKeys nestedDiff))%nat
               then (obj_set (join "/" newPath) (VObj nestedDiff) result, acc1)
               else (result, acc1)
             else if negb (strict_eq value1 value2) then
               (obj_set (join "/" newPath) (diff_entry value1 value2) result,
                obj_set (join "/" newPath) (diff_entry value1 value2) acc)
             else (result, acc))
          keys ([], acc) in
      match path with
      | [] => (acc', acc')
      | _ => (result, acc')
      end
  end.

(** [diffObjectsDeep(a, b)] with its default arguments; the depth of
    [a] is fuel enough (see [diffObjectsDeep_fuel_enough]). *)
Definition diffObjectsDeep (a b : value) : obj :=
  fst (diffObjectsDeep_fuel (S (depth a)) a b [] false []).

(** [isEqual]. *)
Definition isEqual (a b : value) : bool :=
  if negb (jstype_eqb (typeof a) (typeof b)) then false
  else if isNullish a && isNullish b then true
  else if negb (isNullish a) && isNullish b then false
  else if isNullish a && negb (isNullish b) then false
  else if jstype_eqb (typeof a) TObject && jstype_eqb (typeof b) TObject
  then (List.length (objectKeys (diffObjectsDeep a b)) =? 0)%nat
  else if jstype_eqb (typeof a) (typeof b) then strict_eq a b
  else false.

(* ================================================================== *)
(** ** [helpers]: records with and without their [computed] field

    A record is an object; a store slot holds a record or [null], which
    is [option obj] with [None] for [null]. *)

Definition of_record (r : option obj) : value :=
  match r with
  | Some o => VObj o
  | None => VNull
  end.

(** [isItemWithComputed]: [!isNullish(i?.computed) && 'computed' in i]. *)
Definition isItemWithComputed (i : obj) : bool :=
  negb (isNullish (get_prop (VObj i) "computed")) && has_key "computed" i.

(** [itemWithComputedToRaw]: copy, delete [computed], and answer [null]
    when no property is left. *)
Definition itemWithComputedToRaw (_item : option obj) : option obj :=
  match _item with
  | None => None
  | Some _item =>
      let item := obj_delete "computed" _item in
      if (List.length (map snd item) =? 0)%nat then None else Some item
  end.

(** The record that [setRecordItem] and [set] keep of an item [v]:
    [isItemWithComputed(v) ? itemWithComputedToRaw(v) : v]. *)
Definition raw_of (v : obj) : option obj :=
  if isItemWithComputed v then itemWithComputedToRaw (Some v) else Some v.

(* ================================================================== *)
(** ** [ext/nest]: nested child assignment *)

(** [s.split('/')], with [cur] the piece being read. *)
Fixpoint split_from (cur : string) (s : string) : list string :=
  match s with
  | EmptyString => [cur]
  | String c r =>
      if Ascii.eqb c "/"%char then cur :: split_from "" r
      else split_from (cur ++ String c EmptyString) r
  end.

Definition split_path (path : string) : list string := split_from "" path.

(** [String(k).includes('/')]. *)
Fixpoint includes_slash (s : string) : bool :=
  match s with
  | EmptyString => false
  | String c r => Ascii.eqb c "/"%char || includes_slash r
  end.

Definition is_space (c : ascii) : bool :=
  let n := nat_of_ascii c in
  (n =? 32)%nat || ((9 <=? n)%nat && (n <=? 13)%nat).

Definition digit_of (c : ascii) : option Z :=
  let n := nat_of_ascii c in
  if ((48 <=? n)%nat && (n <=? 57)%nat) then Some (Z.of_nat (n - 48))
  else None.

Fixpoint skip_spaces (s : string) : string :=
  match s with
  | String c r => if is_space c then skip_spaces r else s
  | EmptyString => s
  end.

(** The longest prefix of decimal digits, read with accumulator [acc];
    [seen] tells whether a digit was read. *)
Fixpoint read_digits (acc : Z) (seen : bool) (s : string) : option Z :=
  match s with
  | String c r =>
      match digit_of c with
      | Some d => read_digits (10 * acc + d) true r
      | None => if seen then Some acc else None
      end
  | EmptyString => if seen then Some acc else None
  end.

(** [parseInt(s, 10)]; [None] is [NaN]. *)
Definition parseInt10 (s : string) : option Z :=
  match skip_spaces s with
  | String "-"%char r => option_map Z.opp (read_digits 0 false r)
  | String "+"%char r => read_digits 0 false r
  | t => read_digits 0 false t
  end.

(** The array index a number addresses; other numbers name a plain
    property of the array, which the list of elements does not carry. *)
Definition array_index (index : option Z) : option nat :=
  match index with
  | Some i =>
      if ((0 <=? i) && (i <? 4294967295))%Z then Some (Z.to_nat i) else None
  | None => None
  end.

(** [arr[i] = v] on a copy: inside the array the element is replaced, past
    its end the array grows and the skipped slots read [undefined]. *)
Fixpoint array_store (arr : list value) (i : nat) (v : value) : list value :=
  match arr, i with
  | [], O => [v]
  | [], S i' => VUndef :: array_store [] i' v
  | _ :: r, O => v :: r
  | x :: r, S i' => x :: array_store r i' v
  end.

Definition array_write (arr : list value) (index : option Z) (v : value)
  : list value :=
  match array_index index with
  | Some i => array_store arr i v
  | None => arr
  end.

Definition array_read (arr : list value) (index : option Z) : value :=
  match array_index index with
  | Some i => nth i arr VUndef
  | None => VUndef
  end.

(** [v || {}]. *)
Definition or_empty (v : value) : value :=
  if truthy v then v else VObj [].

(** [setNestedChildOnRecord] on the pieces of the path.  The source joins
    the remaining pieces and splits them again in the recursive call,
    which gives the same pieces back. *)
Fixpoint setNestedKeys (o : value) (keys : list string) (v : value) : obj :=
  match keys with
  | [] => spread o
  | key :: rest =>
      match rest with
      | [] => obj_set key v (spread o)
      | k1 :: rest2 =>
          let currentValue := get_prop o key in
          match currentValue with
          | VArr arr =>
              let index := parseInt10 k1 in
              let newArray :=
                match rest2 with
                | [] => array_write arr index v
                | _ =>
                    array_write arr index
                      (VObj (setNestedKeys (or_empty (array_read arr index))
                               rest2 v))
                end in
              obj_set key (VArr newArray) (spread o)
          | _ =>
              obj_set key (VObj (setNestedKeys (or_empty currentValue) rest v))
                (spread o)
          end
      end
  end.

Definition setNestedChildOnRecord (o : obj) (path : string) (v : value) : obj :=
  setNestedKeys (VObj o) (split_path path) v.

(* ================================================================== *)
(** ** [ext/persistence]: tagged serialisation of [Map] and [Set]

    [JSON.stringify] and [JSON.parse] belong to the platform.  They are
    modelled on trees: [JSON_stringify] is the property serialisation walk
    (the replacer is applied to a value before its children are visited)
    and [JSON_parse] is the internalisation walk (the reviver is applied
    to a value after its children).  The text between them is not
    modelled: the platform's printer and reader are inverse on trees. *)

(** [replacer]. *)
Definition replacer (_key : string) (v : value) : value :=
  match v with
  | VMap m =>
      VObj [("dataType", VStr "Map");
            ("value", VArr (map (fun kv => VArr [fst kv; snd kv]) m))]
  | VSet l => VObj [("dataType", VStr "Set"); ("value", VArr l)]
  | _ => v
  end.

(** SameValueZero, the key comparison of [Map] and [Set].  Objects are
    compared by reference: two objects built apart are never the same. *)
Definition same_value_zero (a b : value) : bool :=
  match a, b with
  | VNaN, VNaN => true
  | _, _ => strict_eq a b
  end.

(** [Map.prototype.set] on the list of entries. *)
Fixpoint map_set (k v : value) (m : list (value * value))
  : list (value * value) :=
  match m with
  | [] => [(k, v)]
  | (k', v') :: r =>
      if same_value_zero k k' then (k', v) :: r else (k', v') :: map_set k v r
  end.

(** [Set.prototype.add]. *)
Definition set_add (x : value) (l : list value) : list value :=
  if existsb (same_value_zero x) l then l else (l ++ [x])%list.

(** The items an iterable yields; [None] when the value is not iterable. *)
Definition iterate (v : value) : option (list value) :=
  match v with
  | VArr l => Some l
  | VStr s => Some (string_chars s)
  | VMap m => Some (map (fun kv => VArr [fst kv; snd kv]) m)
  | VSet l => Some l
  | _ => None
  end.

(** Adding the entries one by one; an entry that is not an object raises
    a [TypeError] ([None]). *)
Fixpoint map_of_entries (items : list value) (m : list (value * value))
  : option (list (value * value)) :=
  match items with
  | [] => Some m
  | item :: r =>
      if is_object item
      then map_of_entries r (map_set (get_prop item "0") (get_prop item "1") m)
      else None
  end.

(** [new Map(v)]. *)
Definition newMap (v : value) : option value :=
  if isNullish v then Some (VMap [])
  else match iterate v with
       | Some items => option_map VMap (map_of_entries items [])
       | None => None
       end.

(** [new Set(v)]. *)
Definition newSet (v : value) : option value :=
  if isNullish v then Some (VSet [])
  else match iterate v with
       | Some items => Some (VSet (fold_left (fun l x => set_add x l) items []))
       | None => None
       end.

(** [reviver]; [None] is the exception of a constructor. *)
Definition reviver (_key : string) (v : value) : option value :=
  if is_object v then
    if strict_eq (get_prop v "dataType") (VStr "Map")
    then newMap (get_prop v "value")
    else if strict_eq (get_prop v "dataType") (VStr "Set")
    then newSet (get_prop v "value")
    else Some v
  else Some v.

(** An element of an array: [undefined] is written [null]. *)
Definition or_null (r : option value) : value :=
  match r with
  | Some j => j
  | None => VNull
  end.

(** A property of an object: [undefined] is left out. *)
Definition property (k : string) (r : option value) : obj :=
  match r with
  | Some j => [(k, j)]
  | None => []
  end.

(** [JSON.stringify(v, rep)] as a tree; [None] is [undefined], which is
    also what a function is written as.  [fuel] bounds the nesting depth
    visited after replacement. *)
Fixpoint serialize_fuel (fuel : nat) (rep : string -> value -> value)
  (key : string) (v : value) : option value :=
  match fuel with
  | O => None
  | S fuel' =>
      match rep key v with
      | VUndef => None
      | VNull => Some VNull
      | VBool b => Some (VBool b)
      | VNum n => Some (VNum n)
      | VNaN => Some VNull
      | VStr s => Some (VStr s)
      | VArr l =>
          Some (VArr (map (fun ix =>
                             or_null (serialize_fuel fuel' rep (fst ix) (snd ix)))
                        (index_from 0 l)))
      | VObj o =>
          Some (VObj (flat_map
                        (fun kx =>
                           property (fst kx)
                             (serialize_fuel fuel' rep (fst kx) (snd kx)))
                        o))
      | VMap _ | VSet _ => Some (VObj [])
      | VFun _ => None
      end
  end.

(** [JSON.stringify(v, replacer)]; three levels per level of [v] are fuel
    enough (see [serialize_fuel_enough]). *)
Definition JSON_stringify (v : value) : option value :=
  serialize_fuel (S (3 * depth v)) replacer "" v.

(** The result of the serialisation walk with [replacer], by recursion on
    the value. *)
Fixpoint tagged_tree (v : value) : option value :=
  match v with
  | VUndef => None
  | VNaN => Some VNull
  | VNull => Some VNull
  | VBool b => Some (VBool b)
  | VNum n => Some (VNum n)
  | VStr s => Some (VStr s)
  | VArr l => Some (VArr (map (fun x => or_null (tagged_tree x)) l))
  | VObj o =>
      Some (VObj (flat_map
                    (fun kx => property (fst kx) (tagged_tree (snd kx))) o))
  | VMap m =>
      Some (VObj [("dataType", VStr "Map");
                  ("value",
                    VArr (map (fun kv =>
                                 VArr [or_null (tagged_tree (fst kv));
                                       or_null (tagged_tree (snd kv))])
                            m))])
  | VSet l =>
      Some (VObj [("dataType", VStr "Set");
                  ("value", VArr (map (fun x => or_null (tagged_tree x)) l))])
  | VFun _ => None
  end.

(** Option-valued map, stopping at the first [None]. *)
Definition traverse {A B : Type} (f : A -> option B)
  : list A -> option (list B) :=
  fix go (l : list A) : option (list B) :=
    match l with
    | [] => Some []
    | x :: r =>
        match f x with
        | Some y => option_map (cons y) (go r)
        | None => None
        end
    end.

(** The same over the elements of an array, each with its index. *)
Definition traverse_indexed {A B : Type} (f : string -> A -> option B)
  : nat -> list A -> option (list B) :=
  fix go (i : nat) (l : list A) : option (list B) :=
    match l with
    | [] => Some []
    | x :: r =>
        match f (index_key i) x with
        | Some y => option_map (cons y) (go (S i) r)
        | None => None
        end
    end.

(** [JSON.parse(text, rev)] on the tree read from the text: children
    first, then the reviver on the value; a child revived to [undefined]
    is deleted from its object.  [None] is an exception of the reviver. *)
Fixpoint internalize (rev : string -> value -> option value)
  (name : string) (val : value) : option value :=
  match val with
  | VArr l =>
      match traverse_indexed (internalize rev) 0 l with
      | Some l' => rev name (VArr l')
      | None => None
      end
  | VObj o =>
      match traverse (fun kx => option_map (pair (fst kx))
                                  (internalize rev (fst kx) (snd kx))) o with
      | Some o' =>
          rev name (VObj (filter (fun kx => negb (strict_eq (snd kx) VUndef)) o'))
      | None => None
      end
  | _ => rev name val
  end.

Definition JSON_parse (tree : value) : option value :=
  internalize reviver "" tree.

(** [forceParse(data)]: [tree] is what the platform reads in [data]
    ([None] for a syntax error); any exception gives [data] back. *)
Definition forceParse (data : string) (tree : option value) : value :=
  match tree with
  | Some j => match JSON_parse j with
              | Some v => v
              | None => VStr data
              end
  | None => VStr data
  end.

(** Serialise, then parse. *)
Definition roundtrip (v : value) : option value :=
  match JSON_stringify v with
  | Some j => JSON_parse j
  | None => None
  end.

(** The entries of a [Map] (the elements of a [Set]) are pairwise
    different under SameValueZero, as the containers guarantee. *)
Fixpoint svz_distinct (l : list value) : bool :=
  match l with
  | [] => true
  | x :: r => negb (existsb (same_value_zero x) r) && svz_distinct r
  end.

(** A plain object that carries the tag of a container. *)
Definition has_container_tag (o : obj) : bool :=
  strict_eq (get_prop (VObj o) "dataType") (VStr "Map")
  || strict_eq (get_prop (VObj o) "dataType") (VStr "Set").

(** Values that JSON represents ([undefined], [NaN] and functions are
    not), whose containers are well formed and whose plain objects carry
    no tag. *)
Fixpoint untagged_json (v : value) : bool :=
  match v with
  | VUndef | VNaN | VFun _ => false
  | VNull | VBool _ | VNum _ | VStr _ => true
  | VArr l => forallb untagged_json l
  | VObj o =>
      negb (has_container_tag o) && forallb (fun kx => untagged_json (snd kx)) o
  | VMap m =>
      svz_distinct (map fst m)
      && forallb (fun kv => untagged_json (fst kv) && untagged_json (snd kv)) m
  | VSet l => svz_distinct l && forallb untagged_json l
  end.

(* ================================================================== *)
(** ** [recordManager]: configuration and state *)

(** A derivation [(rawLookup) => (targetOrId, ...extraArgs) => value]: a
    function of the raw lookup it is given and of its arguments. *)
Definition Getter : Type := (string -> value) -> value -> list value -> value.

(** What a manager is created with: the derivation registry
    [computedGetters], [meta.persist] and [meta.ttl]. *)
Class Config : Type := {
  computedGetters : list (string * Getter);
  persist : bool;
  ttl : option Z
}.

(** [DEFAULT_TTL], one week in milliseconds. *)
Definition DEFAULT_TTL : Z := 1000 * 60 * 60 * 24 * 7.


Record PersistenceMeta : Type := { expires : Z }.

(** The stop handle that [watch] returns. *)
Inductive WatchHandle : Type := watchFn.

(** The state of one manager.  [clock] is what [Date.now()] reads.  The
    last two fields are traces kept for the statements only: the pairs
    (id, field) for which [watch] was called, and the calls of derivation
    functions (field, target, extra arguments), both oldest first. *)
Record manager : Type := {
  recordWithComputeds : list (string * option obj);
  recordRaw : list (string * option obj);
  cacheMeta : list (string * option PersistenceMeta);
  watches : list (string * list (string * WatchHandle));
  clock : Z;
  created : list (string * string);
  invoked : list (string * value * list value)
}.

Definition with_computeds (c : list (string * option obj)) (s : manager) :=
  {| recordWithComputeds := c; recordRaw := recordRaw s;
     cacheMeta := cacheMeta s; watches := watches s; clock := clock s;
     created := created s; invoked := invoked s |}.

Definition with_raw (r : list (string * option obj)) (s : manager) :=
  {| recordWithComputeds := recordWithComputeds s; recordRaw := r;
     cacheMeta := cacheMeta s; watches := watches s; clock := clock s;
     created := created s; invoked := invoked s |}.

Definition with_cacheMeta (m : list (string * option PersistenceMeta))
  (s : manager) :=
  {| recordWithComputeds := recordWithComputeds s; recordRaw := recordRaw s;
     cacheMeta := m; watches := watches s; clock := clock s;
     created := created s; invoked := invoked s |}.

Definition with_watch (id k : string) (s : manager) :=
  {| recordWithComputeds := recordWithComputeds s; recordRaw := recordRaw s;
     cacheMeta := cacheMeta s;
     watches :=
       obj_set id
         (obj_set k watchFn
            (match lookup id (watches s) with Some w => w | None => [] end))
         (watches s);
     clock := clock s;
     created := (created s ++ [(id, k)])%list; invoked := invoked s |}.

Definition with_invoked (call : string * value * list value) (s : manager) :=
  {| recordWithComputeds := recordWithComputeds s; recordRaw := recordRaw s;
     cacheMeta := cacheMeta s; watches := watches s; clock := clock s;
     created := created s; invoked := (invoked s ++ [call])%list |}.


(** [store[id]]: the entry the store owns under the key, else the member
    of [Object.prototype] of that name, else [undefined]. *)
Definition read_slot (id : string) (store : list (string * option obj)) : value :=
  match lookup id store with
  | Some r => of_record r
  | None => match inherited_member id with
            | Some f => f
            | None => VUndef
            end
  end.

(** The entry a store owns under a key, as a record or [null]: a key
    that the store does not own has no record. *)
Definition slot (id : string) (store : list (string * option obj)) : option obj :=
  match lookup id store with
  | Some r => r
  | None => None
  end.

(** What a caller holds when a store read answers [v]: the record, [null]
    for a nullish answer, and for a function an object without any own
    enumerable property. *)
Definition as_record (v : value) : option obj :=
  match v with
  | VObj o => Some o
  | VFun _ => Some []
  | _ => None
  end.

(** [recordRawGetter]: [recordRaw[id] ?? null]. *)
Definition recordRawGetter (s : manager) (id : string) : value :=
  nullish_or (read_slot id (recordRaw s)) VNull.

(** [recordWithComputeds[id]?.computed]. *)
Definition computed_of (s : manager) (id : string) : value :=
  match slot id (recordWithComputeds s) with
  | Some c => get_prop (VObj c) "computed"
  | None => VUndef
  end.

(** [recordWithComputeds[id]?.computed?.[k]]. *)
Definition computed_field (s : manager) (id k : string) : value :=
  if isNullish (computed_of s id) then VUndef
  else member (computed_of s id) k.

(** A watch on the field [k] of the record [id] exists: the table that
    [watches] holds for [id] owns the key [k]. *)
Definition watching (s : manager) (id k : string) : bool :=
  match lookup id (watches s) with
  | Some w => has_key k w
  | None => false
  end.

(** The test [watches.get(id)?.[k]] of the source: [watches] is a [Map],
    the table it holds for [id] is a plain object, so the read is truthy
    for a watch the table owns and also for a name of [Object.prototype]. *)
Definition existingWatcher (s : manager) (id k : string) : bool :=
  match lookup id (watches s) with
  | Some w =>
      has_key k w
      || match inherited_member k with Some f => truthy f | None => false end
  | None => false
  end.

(** [watches.has(id)]. *)
Definition isCurrentlyWatching (s : manager) (id : string) : bool :=
  has_key id (watches s).

(** The empty manager: what [recordManager()(computedGetters)] builds. *)
Definition empty_manager (now : Z) : manager :=
  {| recordWithComputeds := []; recordRaw := []; cacheMeta := [];
     watches := []; clock := now; created := []; invoked := [] |}.

Section Manager.
Context {cfg : Config}.

(** [computedGetters[k]?.(recordRawGetter)(target, ...args)]. *)
Definition call_getter (k : string) (target : value) (args : list value)
  (s : manager) : value * manager :=
  match lookup k computedGetters with
  | Some fn => (fn (recordRawGetter s) target args,
                with_invoked (k, target, args) s)
  | None => (VUndef, s)
  end.

(** The callback of the watch on field [k] of record [id], given the new
    value of the watched derivation.  [result] is the current content of
    the ref that [watchGetter] returns. *)
Definition watch_callback (id k : string) (newVal result : value)
  (s : manager) : value * manager :=
  let oldVal := computed_field s id k in
  if isEqual oldVal newVal then (result, s)
  else
    (newVal,
     with_computeds
       (obj_set id
          (Some (obj_set "computed"
                   (VObj (obj_set k newVal (spread (computed_of s id))))
                   (spread (read_slot id (recordWithComputeds s)))))
          (recordWithComputeds s))
       s).

(** [watchGetter]: answers [result.value].  A new watch is [immediate]:
    its source and callback run once before [watch] returns. *)
Definition watchGetter (id k : string) (s : manager) : value * manager :=
  if existingWatcher s id k then (computed_field s id k, s)
  else
    let '(newVal, s1) := call_getter k (VStr id) [] s in
    let '(result, s2) := watch_callback id k newVal VNull s1 in
    (result, with_watch id k s2).

(** A later run of the watch on (id, field): the source is evaluated
    again and the callback runs ([deep] watches call back on every
    trigger).  The framework schedules such a run after the call that
    touched the raw store has returned; in a history it may stand
    between any two calls. *)
Definition fire (id k : string) (s : manager) : manager :=
  if watching s id k then
    let '(newVal, s1) := call_getter k (VStr id) [] s in
    snd (watch_callback id k newVal VNull s1)
  else s.

(** [objectMap] with a callback that works on the manager: the entries
    are visited in order. *)
Fixpoint objectMapM {A B : Type} (f : A -> string -> manager -> B * manager)
  (entries : list (string * A)) (s : manager) : list (string * B) * manager :=
  match entries with
  | [] => ([], s)
  | (k, a) :: r =>
      let '(b, s1) := f a k s in
      let '(bs, s2) := objectMapM f r s1 in
      ((k, b) :: bs, s2)
  end.

(** The callback that [initComputeds] maps over the registry. *)
Definition initComputed (id : string) (item : option obj) (fn : Getter)
  (fnName : string) (s : manager) : value * manager :=
  if isNullish (of_record item) then (VNull, s)
  else if negb (existingWatcher s id fnName) then watchGetter id fnName s
  else if existingWatcher s id fnName then (computed_field s id fnName, s)
  else (fn (recordRawGetter s) (VStr id) [],
        with_invoked (fnName, VStr id, []) s).

(** [initComputeds]. *)
Definition initComputeds (id : string) (item : option obj) (s : manager)
  : obj * manager :=
  let '(entries, s') :=
    objectMapM (initComputed id item) computedGetters s in
  (fromEntries entries, s').

(** [meta.ttl || DEFAULT_TTL]. *)
Definition effective_ttl : Z :=
  match ttl with
  | Some t => if (t =? 0)%Z then DEFAULT_TTL else t
  | None => DEFAULT_TTL
  end.


(** [setRecordItem].  The expiry it stamps is the sum of two numbers of
    the language; it is written as the sum of two integers, which is what
    the language computes when [exact_expiry] holds. *)
Definition setRecordItem (id : string) (v : option obj) (s : manager)
  : manager :=
  match v with
  | None =>
      with_raw (obj_set id None (recordRaw s))
        (with_computeds (obj_set id None (recordWithComputeds s)) s)
  | Some v =>
      let raw := if isItemWithComputed v then itemWithComputedToRaw (Some v)
                 else Some v in
      let s1 := with_raw (obj_set id raw (recordRaw s)) s in
      match raw with
      | None => with_computeds (obj_set id None (recordWithComputeds s1)) s1
      | Some r =>
          let '(c, s2) := initComputeds id (Some r) s1 in
          let withComputed := obj_set "computed" (VObj c) r in
          let s3 :=
            with_computeds
              (obj_set id (Some withComputed) (recordWithComputeds s2)) s2 in
          if persist then
            with_cacheMeta
              (obj_set id (Some {| expires := clock s3 + effective_ttl |})
                 (cacheMeta s3)) s3
          else s3
      end
  end.

(** [watchComputedGetters]. *)
Definition watchComputedGetters (id : string) (s : manager) : manager :=
  fold_left (fun s k => snd (watchGetter id k s)) (objectKeys computedGetters) s.

(** [setAndWatchGetters]. *)
Definition setAndWatchGetters (id : string) (item : option obj) (s : manager)
  : manager :=
  if (List.length (objectKeys computedGetters) =? 0)%nat
     || isNullish (of_record item) || isCurrentlyWatching s id
  then setRecordItem id item s
  else
    let '(itemComputed, s1) := initComputeds id item s in
    if isEqual (VObj itemComputed) (computed_of s1 id)
    then setRecordItem id item s1
    else
      watchComputedGetters id
        (setRecordItem id
           (Some (obj_set "computed" (VObj itemComputed)
                    (spread (of_record item)))) s1).

(** [cacheMappedComputedGetters[name](maybeID, ...args)]: the getter that
    the manager exposes for the declared field [name]. *)
Definition cacheMappedComputedGetters (name : string) (maybeID : value)
  (args : list value) (s : manager) : value * manager :=
  if isNullish maybeID then call_getter name maybeID args s
  else
    let id := match maybeID with
              | VStr id => id
              | _ => js_string (get_prop maybeID "id")
              end in
    let watcher := existingWatcher s id name in
    let cached := computed_field s id name in
    let '(cached, s1) :=
      if negb watcher then
        let '(result, s1) := watchGetter id name s in
        (nullish_or result cached, s1)
      else (cached, s) in
    if (List.length args =? 0)%nat && truthy cached then (cached, s1)
    else call_getter name (VStr id) args s1.

(** [manager.get]. *)
Definition get (id : string) (s : manager) : option obj * manager :=
  let s' := if isNullish (read_slot id (recordWithComputeds s))
            then setRecordItem id None s else s in
  (as_record (read_slot id (recordWithComputeds s')), s').

(** [manager.getRaw]. *)
Definition getRaw (id : string) (s : manager) : option obj * manager :=
  let s' := if isNullish (read_slot id (recordRaw s))
            then setRecordItem id None s else s in
  (as_record (read_slot id (recordRaw s')), s').


(** [manager.set]; [None] is a nullish argument. *)
Definition set (_item : option obj) (s : manager) : manager :=
  let item := match _item with
              | Some i => if isItemWithComputed i
                          then itemWithComputedToRaw (Some i) else Some i
              | None => None
              end in
  match item with
  | None => s
  | Some i => setAndWatchGetters (js_string (get_prop (VObj i) "id")) (Some i) s
  end.

(** [manager.setChildOf]. *)
Definition setChildOf (id key : string) (v : value) (s : manager) : manager :=
  if negb (truthy (read_slot id (recordWithComputeds s))) then s
  else
    match itemWithComputedToRaw
            (as_record (read_slot id (recordWithComputeds s))) with
    | Some explicit =>
        if negb (includes_slash key)
        then set (Some (obj_set key v explicit)) s
        else set (Some (setNestedChildOnRecord explicit key v)) s
    | None => s
    end.

(** [manager.unset]. *)
Definition unset (id : string) (s : manager) : manager :=
  let s1 := with_computeds (obj_set id None (recordWithComputeds s)) s in
  let s2 := with_raw (obj_set id None (recordRaw s1)) s1 in
  let s3 := with_cacheMeta (obj_set id None (cacheMeta s2)) s2 in
  let s4 := with_computeds (obj_delete id (recordWithComputeds s3)) s3 in
  let s5 := with_raw (obj_delete id (recordRaw s4)) s4 in
  with_cacheMeta (obj_delete id (cacheMeta s5)) s5.

(** [manager.reset]; the removal of the persisted blob happens in the
    storage adapter, outside the manager's state. *)
Definition reset (s : manager) : manager :=
  fold_left (fun s id => unset id s) (objectKeys (recordWithComputeds s)) s.



(** [manager.resetComputed]. *)
Definition resetComputed (s : manager) : manager :=
  fold_left (fun s id => watchComputedGetters id s)
    (objectKeys (recordWithComputeds s)) s.

(** [manager.length]: the non-nullish entries of the computed store. *)
Definition manager_length (s : manager) : nat :=
  List.length (filter (fun kv => negb (isNullish (of_record (snd kv))))
                 (recordWithComputeds s)).



(** One step of [cleanUpCache], on the entry [(id, recordCacheMeta)]. *)
Definition evict_if_expired (s : manager)
  (entry : string * option PersistenceMeta) : manager :=
  let '(id, recordCacheMeta) := entry in
  match recordCacheMeta with
  | None => s
  | Some m =>
      if (expires m <? clock s)%Z then
        let s1 := with_raw (obj_delete id (recordRaw s)) s in
        let s2 := with_computeds (obj_delete id (recordWithComputeds s1)) s1 in
        let s3 := with_cacheMeta (obj_delete id (cacheMeta s2)) s2 in
        let s4 := with_raw (obj_set id None (recordRaw s3)) s3 in
        let s5 := with_computeds (obj_set id None (recordWithComputeds s4)) s4 in
        with_cacheMeta (obj_set id None (cacheMeta s5)) s5
      else s
  end.





End Manager.

(* ================================================================== *)
(** ** Histories of a manager *)


Section Histories.
Context {cfg : Config}.





End Histories.

(** A record as callers are typed to pass it: it has at least one
    property, and if it has an own [computed] property, that property is
    not nullish. *)
Definition plain_item (i : obj) : bool :=
  negb (List.length i =? 0)%nat
  && match lookup "computed" i with
     | Some c => negb (isNullish c)
     | None => true
     end.



(** The two stores agree: for every id, the computed-store slot stripped
    by [itemWithComputedToRaw] is the raw-store slot. *)
Definition consistent (s : manager) : Prop :=
  forall id : string,
    itemWithComputedToRaw (slot id (recordWithComputeds s))
    = slot id (recordRaw s).

(** The subscription table and the trace of created watches agree, and no
    watch was created twice. *)
Definition watches_sound (s : manager) : Prop :=
  NoDup (created s)
  /\ forall id k : string, In (id, k) (created s) <-> watching s id k = true.



(** [s'] extends the subscriptions of [s]: no watch of [s] is lost, and
    the agreement of table and trace carries over. *)
Definition extends (s s' : manager) : Prop :=
  (forall i k : string, watching s i k = true -> watching s' i k = true)
  /\ (watches_sound s -> watches_sound s').

(** A step of the computed-value engine for the record [id]: the raw
    store, the metadata and the clock stay, the computed store changes at
    [id] only and keeps the stripped record there. *)
Definition engine_step (id : string) (s s' : manager) : Prop :=
  recordRaw s' = recordRaw s
  /\ cacheMeta s' = cacheMeta s
  /\ clock s' = clock s
  /\ (forall id' : string, id' <> id ->
      lookup id' (recordWithComputeds s') = lookup id' (recordWithComputeds s))
  /\ itemWithComputedToRaw (slot id (recordWithComputeds s'))
     = itemWithComputedToRaw (slot id (recordWithComputeds s))
  /\ extends s s'.

(** A write to the record [id]: every slot of another id stays. *)
Definition writes_only (id : string) (s s' : manager) : Prop :=
  forall id' : string, id' <> id ->
    lookup id' (recordRaw s') = lookup id' (recordRaw s)
    /\ lookup id' (recordWithComputeds s') = lookup id' (recordWithComputeds s)
    /\ lookup id' (cacheMeta s') = lookup id' (cacheMeta s).



(** The store [b] is the store [a], or [a] after one assignment to the
    key [id]. *)
Definition written {A : Type} (id : string) (a b : list (string * A)) : Prop :=
  b = a \/ exists e : A, b = obj_set id e a.



(** The records that the computed store holds, in the order of its
    keys: what [Object.values(recordWithComputeds)] gives when the
    [null] entries are dropped. *)
Definition records (s : manager) : list obj :=
  flat_map (fun kv : string * option obj =>
              match snd kv with
              | Some r => [r]
              | None => []
              end)
    (recordWithComputeds s).

(* ================================================================== *)
(** ** [ext/index]: filters and maps over the values of an object *)

(** [nullishFilter]. *)
Definition nullishFilter (i : value) : bool := negb (isNullish i).

(** [objectEntries]. *)
Definition objectEntries {A : Type} (o : list (string * A))
  : list (string * A) := o.

(** [objectFilter]. *)
Definition objectFilter {A : Type} (object : list (string * A))
  (callback : A -> bool) : list (string * A) :=
  let entries := objectEntries object in
  let filteredEntries := filter (fun entry => callback (snd entry)) entries in
  fromEntries filteredEntries.

(** [objectMap]; the optional [keyCallback] may answer a nullish key
    ([None]), in which case the key is kept. *)
Definition objectMap {I O : Type} (object : list (string * I))
  (callback : I -> string -> O)
  (keyCallback : option (string -> I -> option string)) : list (string * O) :=
  fromEntries
    (map (fun entry : string * I =>
            let '(key, value) := entry in
            (match keyCallback with
             | Some kc => match kc key value with
                          | Some k => k
                          | None => key
                          end
             | None => key
             end,
             callback value key))
       (objectEntries object)).

(* ================================================================== *)
(** ** [ext/diff]: the shallow diff *)

(** [Set.prototype.add] on strings. *)
Definition string_set_add (x : string) (l : list string) : list string :=
  if existsb (String.eqb x) l then l else (l ++ [x])%list.

(** [diffObjectsShallow]. *)
Definition diffObjectsShallow (_prev _next : value) : list string :=
  let prev := nullish_or _prev (VObj []) in
  let next := nullish_or _next (VObj []) in
  let diffs := diffObjectsDeep prev next in
  fold_left
    (fun (highestDiffs : list string) (key : string) =>
       let highestParent := hd "" (split_path key) in
       if truthy (VStr highestParent)
       then string_set_add highestParent highestDiffs
       else highestDiffs)
    (objectKeys diffs) [].

(** Values in which no [NaN] can be reached through the properties of
    objects and the elements of arrays. *)
Fixpoint nan_free (v : value) : bool :=
  match v with
  | VNaN => false
  | VArr l => forallb nan_free l
  | VObj o => forallb (fun kv => nan_free (snd kv)) o
  | _ => true
  end.

(** The key [key] adds no difference when [prev] and [next] are
    compared with [fuel] levels left: the two values under it are objects
    whose comparison adds none, or they are strictly equal. *)
Definition same_at (fuel : nat) (prev next : value) (path : list string)
  (allowNullish : bool) (key : string) : Prop :=
  let validate (val : value) :=
    if allowNullish && isNullish val then VNull else val in
  let value1 := validate (member prev key) in
  let value2 := validate (member next key) in
  if is_object value1 && is_object value2
  then snd (diffObjectsDeep_fuel fuel value1 value2 (path ++ [key])%list
              allowNullish []) = []
  else strict_eq value1 value2 = true.

(* ================================================================== *)
(** ** [ext/nest]: reading along a path *)

(** [v[k1][k2]...], the read that corresponds to a nested assignment. *)
Fixpoint get_path (v : value) (keys : list string) : value :=
  match keys with
  | [] => v
  | k :: r => get_path (get_prop v k) r
  end.

(** No array stands on the way of the path (the last piece excepted):
    every step of the assignment goes through an object. *)
Fixpoint object_path (v : value) (keys : list string) : bool :=
  match keys with
  | [] => true
  | k :: r =>
      match r with
      | [] => true
      | _ => match get_prop v k with
             | VArr _ => false
             | x => object_path (or_empty x) r
             end
      end
  end.

(* ================================================================== *)
(** ** [ext/persistence]: the storage adapter *)

(** [getKey]. *)
Definition getKey (key : string) : string := "persist--" ++ key.

(** What the adapter asks of [localStorage]: [setItem] with the text of
    a tree ([None] is the text of [undefined]), or [removeItem]. *)
Inductive storage_call : Type :=
| setItem (key : string) (tree : option value)
| removeItem (key : string).

(** The callback of the watch that [initWatch] puts on a reactive object
    (the branch for a value that is not a ref). *)
Definition initWatch_callback (key : string) (includeNullish : bool)
  (newValue : obj) : storage_call :=
  let valueToStore :=
    if includeNullish then newValue
    else objectFilter newValue nullishFilter in
  if (0 <? List.length (objectKeys valueToStore))%nat
  then setItem key (JSON_stringify (VObj valueToStore))
  else removeItem key.

(** The value [ls.reactive] starts from: [cachedValue] is the item of
    the storage ([None] when the key is absent) and [tree] is what the
    platform reads in it, as for [forceParse]. *)
Definition ls_reactive (cachedValue : option string) (tree : option value)
  (defaultValue : value) : value :=
  match cachedValue with
  | Some data =>
      if truthy (VStr data) then forceParse data tree else defaultValue
  | None => defaultValue
  end.

(** Trees of the JSON grammar: no [undefined], no [NaN], no container. *)
Fixpoint json_tree (v : value) : bool :=
  match v with
  | VNull | VBool _ | VNum _ | VStr _ => true
  | VArr l => forallb json_tree l
  | VObj o => forallb (fun kx => json_tree (snd kx)) o
  | _ => false
  end.

(* ================================================================== *)
(** ** [ext/state]: [autoState] *)

(** [Object.assign(target, source)]. *)
Definition Object_assign (target : obj) (source : value) : obj :=
  fold_left (fun t kv => obj_set (fst kv) (snd kv) t) (spread source) target.

(** The member [name] of [autoState(initialState).set], as what a call
    of it does to [state.value]; [None] when [set] has no such member.
    The member [value] is written last in the object literal, so it
    replaces the setter of a field that is named [value]. *)
Definition autoState_set (initialState : obj) (name : string)
  : option (value -> obj -> obj) :=
  if String.eqb name "value"
  then Some (fun val state => Object_assign state val)
  else if has_key name initialState
  then Some (fun v state => obj_set name v state)
  else None.

(* ================================================================== *)
(** ** [recordManager]: the reading surface of the manager *)

Section ManagerViews.
Context {cfg : Config}.

(** [manager.forEach]; what the callback does to its surroundings is a
    transformation of a state [A]. *)
Definition forEach {A : Type} (callback : obj -> A -> A) (s : manager)
  (a : A) : A :=
  fold_left
    (fun a (item : option obj) =>
       match item with
       | Some r => callback r a
       | None => a
       end)
    (map snd (recordWithComputeds s)) a.

(** [manager.filter]. *)
Definition manager_filter (filter : obj -> bool) (s : manager)
  : list (string * option obj) :=
  objectFilter (recordWithComputeds s)
    (fun item => negb (isNullish (of_record item))
                 && match item with
                    | Some r => filter r
                    | None => false
                    end).



End ManagerViews.

(* ================================================================== *)
(** ** Sample data *)

(** The derivation [raw => id => 2 * (raw(id)?.x ?? 0)]. *)
Definition double : Getter :=
  fun rawLookup target _ =>
    match target with
    | VStr id =>
        match get_prop (rawLookup id) "x" with
        | VNum n => VNum (2 * n)
        | _ => VNum 0
        end
    | _ => VNum 0
    end.

(** A manager with the derivation field [double], not persisted. *)
Definition cfg_double : Config :=
  {| computedGetters := [("double", double)]; persist := false; ttl := None |}.



Definition record_a (x : Z) : obj := [("id", VStr "a"); ("x", VNum x)].

Definition record_items (name : string) : obj :=
  [("id", VStr "a"); ("items", VArr [VObj [("name", VStr name)]])].

(* ================================================================== *)
(** * Properties *)

(** ** Objects used as maps *)

Section ObjectFacts.
Context {A : Type}.
Implicit Types (k : string) (v : A) (o : list (string * A)).

Lemma lookup_obj_set_eq k v o : lookup k (obj_set k v o) = Some v.
Proof.
  induction o as [|[k' v'] r IH]; simpl.
  - now rewrite String.eqb_refl.
  - destruct (String.eqb k k') eqn:E; simpl.
    + now rewrite String.eqb_refl.
    + now rewrite E.
Qed.

Lemma lookup_obj_set_neq k k' v o :
  k <> k' -> lookup k' (obj_set k v o) = lookup k' o.
Proof.
  intros Hneq. induction o as [|[k0 v0] r IH]; simpl.
  - destruct (String.eqb k' k) eqn:E; [|reflexivity].
    apply String.eqb_eq in E. congruence.
  - destruct (String.eqb k k0) eqn:E; simpl.
    + apply String.eqb_eq in E. subst k0.
      destruct (String.eqb k' k) eqn:E'; [|reflexivity].
      apply String.eqb_eq in E'. congruence.
    + now rewrite IH.
Qed.

Lemma lookup_obj_delete_eq k o : lookup k (obj_delete k o) = None.
Proof.
  unfold obj_delete. induction o as [|[k' v'] r IH]; simpl; [reflexivity|].
  destruct (String.eqb k k') eqn:E; simpl; [assumption|].
  now rewrite E.
Qed.

Lemma lookup_obj_delete_neq k k' o :
  k <> k' -> lookup k' (obj_delete k o) = lookup k' o.
Proof.
  intros Hneq. unfold obj_delete.
  induction o as [|[k0 v0] r IH]; simpl; [reflexivity|].
  destruct (String.eqb k k0) eqn:E; simpl.
  - apply String.eqb_eq in E. subst k0.
    destruct (String.eqb k' k) eqn:E'; [|assumption].
    apply String.eqb_eq in E'. congruence.
  - now rewrite IH.
Qed.

Lemma obj_delete_obj_set k v o :
  obj_delete k (obj_set k v o) = obj_delete k o.
Proof.
  unfold obj_delete. induction o as [|[k' v'] r IH]; simpl.
  - now rewrite String.eqb_refl.
  - destruct (String.eqb k k') eqn:E; simpl.
    + now rewrite String.eqb_refl.
    + now rewrite E, IH.
Qed.

Lemma obj_delete_absent k o : lookup k o = None -> obj_delete k o = o.
Proof.
  unfold obj_delete. induction o as [|[k' v'] r IH]; simpl; [reflexivity|].
  destruct (String.eqb k k') eqn:E; simpl; [discriminate|].
  intros H. now rewrite IH.
Qed.

Lemma obj_set_absent k v o :
  lookup k o = None -> obj_set k v o = (o ++ [(k, v)])%list.
Proof.
  induction o as [|[k' v'] r IH]; simpl; [reflexivity|].
  destruct (String.eqb k k') eqn:E; [discriminate|].
  intros H. now rewrite IH.
Qed.


Lemma count_key_absent k o : lookup k o = None -> count_key k o = 0.
Proof.
  unfold count_key. induction o as [|[k' v'] r IH]; simpl; [reflexivity|].
  destruct (String.eqb k k') eqn:E; [discriminate|]. exact IH.
Qed.


Lemma count_key_obj_set_present k v o :
  lookup k o <> None -> count_key k (obj_set k v o) = count_key k o.
Proof.
  unfold count_key. induction o as [|[k' v'] r IH]; simpl; [congruence|].
  destruct (String.eqb k k') eqn:E; simpl.
  - now rewrite String.eqb_refl.
  - rewrite E. exact IH.
Qed.

Lemma count_key_obj_delete k o : count_key k (obj_delete k o) = 0.
Proof. apply count_key_absent, lookup_obj_delete_eq. Qed.

Lemma lookup_In k v o : lookup k o = Some v -> In (k, v) o.
Proof.
  induction o as [|[k' v'] r IH]; simpl; [discriminate|].
  destruct (String.eqb k k') eqn:E.
  - apply String.eqb_eq in E. subst k'. intros [= ->]. now left.
  - intros H. right. now apply IH.
Qed.


End ObjectFacts.

(* ================================================================== *)
(** ** [isEqual] on nullish values *)

Lemma isEqual_mixed_nullish (a b : value) :
  isNullish a = true -> isNullish b = false ->
  isEqual a b = false /\ isEqual b a = false.
Proof.
  intros Ha Hb. destruct a; try discriminate; destruct b; try discriminate;
    split; reflexivity.
Qed.

Lemma isEqual_same_nullish (a : value) :
  isNullish a = true -> isEqual a a = true.
Proof. destruct a; try discriminate; reflexivity. Qed.

(** C6, as stated, fails: [isEqual] answers [false] on a [null] and an
    [undefined], in both orders.  Its first check is
    [typeof a !== typeof b], and the two have different types ('object'
    and 'undefined'). *)
Lemma isEqual_null_undefined :
  isEqual VNull VUndef = false /\ isEqual VUndef VNull = false.
Proof. split; reflexivity. Qed.

(** C6, amended: a nullish value is equal, for [isEqual], to itself only:
    [null] to [null] and [undefined] to [undefined]; against the other
    nullish value and against every non-nullish value the answer is
    [false], in both orders. *)
Theorem isEqual_nullish (a b : value) :
  isNullish a = true ->
  (isEqual a b = true <-> b = a) /\ (isEqual b a = true <-> b = a).
Proof.
  intros Ha.
  destruct a; try discriminate; destruct b; simpl;
    repeat split; intros H; try discriminate; reflexivity.
Qed.

Lemma isEqual_nullish_witness :
  isNullish VNull = true
  /\ (isEqual VNull VNull = true <-> VNull = VNull)
  /\ (isEqual VNull VUndef = true <-> VUndef = VNull)
  /\ (isEqual (VNum 0) VNull = true <-> VNum 0 = VNull).
Proof.
  split; [reflexivity|].
  split; [apply (isEqual_nullish VNull VNull eq_refl)|].
  split; [apply (isEqual_nullish VNull VUndef eq_refl)|].
  apply (isEqual_nullish VNull (VNum 0) eq_refl).
Defined.

(* ================================================================== *)
(** ** The subscription table *)

Lemma has_key_obj_set {A : Type} (k k' : string) (v : A) (o : list (string * A)) :
  has_key k' (obj_set k v o) = String.eqb k' k || has_key k' o.
Proof.
  unfold has_key. destruct (String.eqb k' k) eqn:E; simpl.
  - apply String.eqb_eq in E. subst k'. now rewrite lookup_obj_set_eq.
  - apply String.eqb_neq in E. rewrite lookup_obj_set_neq; congruence.
Qed.

Lemma watching_with_watch (s : manager) (id k i k' : string) :
  watching (with_watch id k s) i k'
  = (String.eqb i id && String.eqb k' k) || watching s i k'.
Proof.
  unfold watching, with_watch; simpl.
  destruct (String.eqb i id) eqn:E; simpl.
  - apply String.eqb_eq in E. subst i.
    rewrite lookup_obj_set_eq, has_key_obj_set.
    destruct (lookup id (watches s)); reflexivity.
  - apply String.eqb_neq in E. rewrite lookup_obj_set_neq; congruence.
Qed.

Lemma inherited_member_fun (k : string) (f : value) :
  inherited_member k = Some f -> f = VFun k.
Proof.
  unfold inherited_member. destruct (existsb _ _); congruence.
Qed.

Lemma own_name_inherited (k : string) :
  own_name k = true -> inherited_member k = None.
Proof. unfold own_name. now destruct (inherited_member k). Qed.

Lemma existingWatcher_watching (s : manager) (id k : string) :
  watching s id k = true -> existingWatcher s id k = true.
Proof.
  unfold watching, existingWatcher. destruct (lookup id (watches s)); [|easy].
  now intros ->.
Qed.

Lemma existingWatcher_none (s : manager) (id k : string) :
  existingWatcher s id k = false -> watching s id k = false.
Proof.
  destruct (watching s id k) eqn:E; [|easy].
  now rewrite (existingWatcher_watching _ _ _ E).
Qed.



Lemma extends_refl (s : manager) : extends s s.
Proof. split; auto. Qed.

Lemma extends_trans (s1 s2 s3 : manager) :
  extends s1 s2 -> extends s2 s3 -> extends s1 s3.
Proof. intros [A1 B1] [A2 B2]. split; auto. Qed.

Lemma extends_same (s s' : manager) :
  watches s' = watches s -> created s' = created s -> extends s s'.
Proof.
  intros Hw Hc. unfold extends, watches_sound, watching.
  rewrite Hw, Hc. split; auto.
Qed.

Lemma extends_with_watch (s : manager) (id k : string) :
  watching s id k = false -> extends s (with_watch id k s).
Proof.
  intros Hnot. split.
  - intros i k' H. rewrite watching_with_watch, H. apply orb_true_r.
  - intros [Hnd Hiff]. split.
    + simpl. apply NoDup_app; [assumption | repeat constructor; simpl; tauto |].
      intros p Hin [<-|[]]. apply Hiff in Hin. congruence.
    + intros i k'. rewrite watching_with_watch. simpl. rewrite in_app_iff.
      rewrite orb_true_iff, andb_true_iff, !String.eqb_eq, Hiff. simpl.
      split.
      * intros [H|[[= -> ->]|[]]]; auto.
      * intros [[-> ->]|H]; auto.
Qed.

(* ================================================================== *)
(** ** Steps of the computed-value engine *)

Ltac engine_split :=
  unfold engine_step; repeat match goal with |- _ /\ _ => split end.

Lemma engine_step_refl (id : string) (s : manager) : engine_step id s s.
Proof. engine_split; auto using extends_refl. Qed.

Lemma engine_step_trans (id : string) (s1 s2 s3 : manager) :
  engine_step id s1 s2 -> engine_step id s2 s3 -> engine_step id s1 s3.
Proof.
  intros (A1 & B1 & C1 & D1 & E1 & F1) (A2 & B2 & C2 & D2 & E2 & F2).
  engine_split; try congruence.
  - intros id' Hid. rewrite D2, D1; auto.
  - eapply extends_trans; eassumption.
Qed.

Lemma strip_set_computed (c : value) (o : option obj) :
  itemWithComputedToRaw
    (Some (obj_set "computed" c (spread (of_record o))))
  = itemWithComputedToRaw o.
Proof.
  destruct o as [r|]; simpl.
  - now rewrite obj_delete_obj_set.
  - reflexivity.
Qed.

Lemma read_slot_of_slot (id : string) (store : list (string * option obj)) :
  spread (read_slot id store) = spread (of_record (slot id store)).
Proof.
  unfold read_slot, slot. destruct (lookup id store) as [[r|]|]; try easy.
  destruct (inherited_member id) as [f|] eqn:E; [|easy].
  now rewrite (inherited_member_fun _ _ E).
Qed.



Lemma as_record_of_record (r : option obj) : as_record (of_record r) = r.
Proof. now destruct r. Qed.

Lemma as_record_stored (id : string) (store : list (string * option obj))
  (r : obj) :
  slot id store = Some r -> as_record (read_slot id store) = slot id store.
Proof.
  unfold slot, read_slot.
  destruct (lookup id store) as [[x|]|]; intros [= ->]. reflexivity.
Qed.


Lemma read_slot_present (id : string) (store : list (string * option obj))
  (r : obj) :
  slot id store = Some r -> read_slot id store = VObj r.
Proof.
  unfold slot, read_slot.
  destruct (lookup id store) as [[x|]|]; intros [= ->]. reflexivity.
Qed.

Section EngineFacts.
Context {cfg : Config}.

Lemma call_getter_watches (k : string) (target : value) (args : list value)
  (s : manager) :
  watches (snd (call_getter k target args s)) = watches s
  /\ created (snd (call_getter k target args s)) = created s.
Proof. unfold call_getter. destruct (lookup k computedGetters); auto. Qed.

Lemma call_getter_step (id k : string) (target : value) (args : list value)
  (s : manager) :
  engine_step id s (snd (call_getter k target args s)).
Proof.
  destruct (call_getter_watches k target args s) as [Hw Hc].
  unfold call_getter in *. destruct (lookup k computedGetters); simpl in *.
  - engine_split; auto using extends_same.
  - apply engine_step_refl.
Qed.

Lemma watch_callback_watches (id k : string) (newVal result : value)
  (s : manager) :
  watches (snd (watch_callback id k newVal result s)) = watches s
  /\ created (snd (watch_callback id k newVal result s)) = created s.
Proof. unfold watch_callback. destruct (isEqual _ _); auto. Qed.

Lemma watch_callback_step (id k : string) (newVal result : value)
  (s : manager) :
  engine_step id s (snd (watch_callback id k newVal result s)).
Proof.
  unfold watch_callback. destruct (isEqual _ _); simpl.
  - apply engine_step_refl.
  - engine_split; auto using extends_same; simpl.
    + intros id' Hid. apply lookup_obj_set_neq. congruence.
    + unfold slot at 1. rewrite lookup_obj_set_eq, read_slot_of_slot.
      apply strip_set_computed.
Qed.

Lemma with_watch_step (id k : string) (s : manager) :
  watching s id k = false -> engine_step id s (with_watch id k s).
Proof. intros H. engine_split; auto using extends_with_watch. Qed.

Lemma watchGetter_step (id k : string) (s : manager) :
  engine_step id s (snd (watchGetter id k s)).
Proof.
  unfold watchGetter. destruct (existingWatcher s id k) eqn:Hw; simpl.
  - apply engine_step_refl.
  - apply existingWatcher_none in Hw.
    pose proof (call_getter_step id k (VStr id) [] s) as H1.
    pose proof (call_getter_watches k (VStr id) [] s) as [W1 _].
    destruct (call_getter k (VStr id) [] s) as [newVal s1]; simpl in *.
    pose proof (watch_callback_step id k newVal VNull s1) as H2.
    pose proof (watch_callback_watches id k newVal VNull s1) as [W2 _].
    destruct (watch_callback id k newVal VNull s1) as [result s2]; simpl in *.
    eapply engine_step_trans; [exact H1|].
    eapply engine_step_trans; [exact H2|].
    apply with_watch_step. unfold watching in *. now rewrite W2, W1.
Qed.





Lemma objectMapM_step {A B : Type} (id : string)
  (f : A -> string -> manager -> B * manager) (entries : list (string * A)) :
  (forall a k s, engine_step id s (snd (f a k s))) ->
  forall s, engine_step id s (snd (objectMapM f entries s)).
Proof.
  intros Hf. induction entries as [|[k a] r IH]; intros s; simpl.
  - apply engine_step_refl.
  - pose proof (Hf a k s) as H1. destruct (f a k s) as [b s1]; simpl in H1.
    pose proof (IH s1) as H2. destruct (objectMapM f r s1) as [bs s2]; simpl in *.
    eapply engine_step_trans; eassumption.
Qed.

Lemma initComputed_step (id : string) (item : option obj) (fn : Getter)
  (k : string) (s : manager) :
  engine_step id s (snd (initComputed id item fn k s)).
Proof.
  unfold initComputed. destruct (isNullish (of_record item)); simpl;
    [apply engine_step_refl|].
  destruct (existingWatcher s id k); simpl;
    [apply engine_step_refl | apply watchGetter_step].
Qed.

Lemma initComputeds_step (id : string) (item : option obj) (s : manager) :
  engine_step id s (snd (initComputeds id item s)).
Proof.
  unfold initComputeds.
  pose proof (objectMapM_step id (initComputed id item) computedGetters
                (initComputed_step id item) s) as H.
  destruct (objectMapM _ computedGetters s) as [entries s']. exact H.
Qed.

Lemma watchComputedGetters_step (id : string) (s : manager) :
  engine_step id s (watchComputedGetters id s).
Proof.
  unfold watchComputedGetters. generalize (objectKeys computedGetters).
  intros l. revert s. induction l as [|k r IH]; intros s; simpl.
  - apply engine_step_refl.
  - eapply engine_step_trans; [apply watchGetter_step | apply IH].
Qed.

End EngineFacts.

(* ================================================================== *)
(** ** [setRecordItem] *)

Lemma slot_obj_set_eq (id : string) (r : option obj)
  (store : list (string * option obj)) :
  slot id (obj_set id r store) = r.
Proof. unfold slot. now rewrite lookup_obj_set_eq. Qed.




Lemma writes_only_refl (id : string) (s : manager) : writes_only id s s.
Proof. intros id' _. auto. Qed.


Lemma not_with_computed_plain (v : obj) :
  plain_item v = true -> isItemWithComputed v = false ->
  lookup "computed" v = None.
Proof.
  unfold plain_item, isItemWithComputed, has_key. simpl.
  destruct (lookup "computed" v) as [c|]; [|reflexivity].
  intros H1 H2. apply andb_true_iff in H1 as [_ H1]. rewrite H1 in H2.
  discriminate.
Qed.


Section SetRecordItemFacts.
Context {cfg : Config}.



(** The slots that [setRecordItem] leaves at [id]. *)
Lemma setRecordItem_slots (id : string) (v : option obj) (s : manager) :
  slot id (recordRaw (setRecordItem id v s))
  = match v with Some v => raw_of v | None => None end
  /\ match v with
     | Some v =>
         match raw_of v with
         | Some r =>
             exists c, slot id (recordWithComputeds (setRecordItem id (Some v) s))
                       = Some (obj_set "computed" c r)
         | None => slot id (recordWithComputeds (setRecordItem id (Some v) s))
                   = None
         end
     | None => slot id (recordWithComputeds (setRecordItem id None s)) = None
     end.
Proof.
  unfold setRecordItem, raw_of. destruct v as [v|].
  - destruct (if isItemWithComputed v then _ else _) as [r|] eqn:E.
    + match goal with |- context [initComputeds id ?i ?s1] =>
        pose proof (initComputeds_step id i s1) as H;
        destruct (initComputeds id i s1) as [c s2] end.
      destruct H as (A & _). simpl in A.
      split.
      * destruct persist; simpl; rewrite A; apply slot_obj_set_eq.
      * exists (VObj c). destruct persist; simpl; apply slot_obj_set_eq.
    + simpl. split; apply slot_obj_set_eq.
  - simpl. split; apply slot_obj_set_eq.
Qed.



End SetRecordItemFacts.

(* ================================================================== *)
(** ** The public operations keep the stores consistent *)

Lemma split_from_nonempty (s cur : string) :
  exists k rest, split_from cur s = k :: rest.
Proof.
  revert cur. induction s as [|c r IH]; intros cur; simpl; eauto.
  destruct (Ascii.eqb c "/"); eauto.
Qed.


Lemma raw_of_plain (v r : obj) :
  plain_item v = true -> raw_of v = Some r -> plain_item r = true.
Proof.
  unfold raw_of. destruct (isItemWithComputed v) eqn:E.
  - intros _. simpl. destruct (_ =? 0)%nat eqn:L; [discriminate|].
    intros [= <-]. unfold plain_item. rewrite lookup_obj_delete_eq.
    rewrite length_map in L. now rewrite L.
  - now intros H [= <-].
Qed.




Section ConsistencyFacts.
Context {cfg : Config}.














End ConsistencyFacts.

(* ================================================================== *)
(** ** C3: [unset] *)

(** C3, as stated, fails on its last part: after [unset] the watch of the
    record is still in the subscription table, and it still runs: its
    next run writes a computed-only entry back under the unset id. *)
Lemma unset_keeps_subscription :
  let s := unset "a"
             (set (cfg := cfg_double) (Some (record_a 2)) (empty_manager 0)) in
  watching s "a" "double" = true
  /\ lookup "a" (watches s) = Some [("double", watchFn)]
  /\ recordWithComputeds (fire (cfg := cfg_double) "a" "double" s)
     = [("a", Some [("computed", VObj [("double", VNum 0)])])]
  /\ manager_length (fire (cfg := cfg_double) "a" "double" s) = 1.
Proof. vm_compute. repeat split. Qed.

(** C3, amended: [unset(id)] leaves the key [id] absent from the raw
    store, the computed store and the cache metadata (no row is left, not
    even a [null] one) and does not touch the subscription table. *)
Theorem unset_removes_keys (id : string) (s : manager) :
  lookup id (recordRaw (unset id s)) = None
  /\ lookup id (recordWithComputeds (unset id s)) = None
  /\ lookup id (cacheMeta (unset id s)) = None
  /\ count_key id (recordRaw (unset id s)) = 0
  /\ count_key id (recordWithComputeds (unset id s)) = 0
  /\ count_key id (cacheMeta (unset id s)) = 0
  /\ watches (unset id s) = watches s
  /\ created (unset id s) = created s.
Proof.
  simpl. rewrite !lookup_obj_delete_eq, !count_key_obj_delete. repeat split.
Qed.

(* ================================================================== *)
(** ** C7 and C10: reads of a missing id *)










(* ================================================================== *)
(** ** C4: one watch for each (id, field) *)



Section WatchFacts.
Context {cfg : Config}.














Lemma raw_of_idem (v r : obj) : raw_of v = Some r -> raw_of r = Some r.
Proof.
  unfold raw_of at 1. destruct (isItemWithComputed v) eqn:E.
  - simpl. destruct (_ =? 0)%nat; [discriminate|]. intros [= <-].
    unfold raw_of, isItemWithComputed, has_key.
    now rewrite lookup_obj_delete_eq, andb_false_r.
  - intros [= <-]. unfold raw_of. now rewrite E.
Qed.



End WatchFacts.



(* ================================================================== *)
(** ** C5: the exposed getters *)

(** The getter of a subscribed field, called with an id: the cached value
    is answered, with no call of the derivation, when there are no extra
    arguments and the cached value is truthy; in every other case the
    derivation is called once with the id and the extra arguments. *)
Lemma cached_getter_subscribed {cfg : Config} (s : manager) (id f : string)
  (fn : Getter) (args : list value) :
  watching s id f = true ->
  lookup f computedGetters = Some fn ->
  cacheMappedComputedGetters f (VStr id) args s
  = if (List.length args =? 0)%nat && truthy (computed_field s id f)
    then (computed_field s id f, s)
    else (fn (recordRawGetter s) (VStr id) args,
          with_invoked (f, VStr id, args) s).
Proof.
  intros Hw Hf. unfold cacheMappedComputedGetters. simpl isNullish. cbv iota.
  rewrite (existingWatcher_watching _ _ _ Hw). simpl negb. cbv iota.
  destruct (_ && _); [reflexivity|].
  unfold call_getter. now rewrite Hf.
Qed.

Lemma cached_getter_extra_args {cfg : Config} (s : manager) (id f : string)
  (fn : Getter) (a : value) (args : list value) :
  watching s id f = true ->
  lookup f computedGetters = Some fn ->
  cacheMappedComputedGetters f (VStr id) (a :: args) s
  = (fn (recordRawGetter s) (VStr id) (a :: args),
     with_invoked (f, VStr id, a :: args) s).
Proof.
  intros Hw Hf. now rewrite (cached_getter_subscribed s id f fn _ Hw Hf).
Qed.

Lemma cached_getter_truthy_cache {cfg : Config} (s : manager) (id f : string)
  (fn : Getter) :
  watching s id f = true ->
  lookup f computedGetters = Some fn ->
  truthy (computed_field s id f) = true ->
  cacheMappedComputedGetters f (VStr id) [] s = (computed_field s id f, s).
Proof.
  intros Hw Hf Ht. rewrite (cached_getter_subscribed s id f fn _ Hw Hf).
  simpl. now rewrite Ht.
Qed.

(** C5 at a cached value that is falsy.  After [set({id: 'a', x: 0})] and
    a run of the watch, the field [double] of ['a'] is subscribed and its
    cached value is [0]; the getter called with the id alone still calls
    the derivation.  When the cached [0] is stale (the record has
    [x = 2] and the watch has not run again yet) the answer is not the
    cached value either. *)
Theorem cached_getter_falsy_cache :
  let s := fire (cfg := cfg_double) "a" "double"
             (set (cfg := cfg_double) (Some (record_a 0)) (empty_manager 0)) in
  let stale := set (cfg := cfg_double) (Some (record_a 2)) (empty_manager 0) in
  watching s "a" "double" = true
  /\ computed_field s "a" "double" = VNum 0
  /\ cacheMappedComputedGetters (cfg := cfg_double) "double" (VStr "a") [] s
     = (VNum 0, with_invoked ("double", VStr "a", []) s)
  /\ watching stale "a" "double" = true
  /\ computed_field stale "a" "double" = VNum 0
  /\ cacheMappedComputedGetters (cfg := cfg_double) "double" (VStr "a") [] stale
     = (VNum 4, with_invoked ("double", VStr "a", []) stale).
Proof. vm_compute. repeat split. Qed.

(* ================================================================== *)
(** ** C2: the eviction pass of a new manager *)


Section ConstructionFacts.
Context {cfg : Config}.

Lemma evict_clock (s : manager) (e : string * option PersistenceMeta) :
  clock (evict_if_expired s e) = clock s.
Proof.
  destruct e as [id [m|]]; simpl; [|reflexivity].
  now destruct (_ <? _)%Z.
Qed.

Lemma cleanUp_clock (entries : list (string * option PersistenceMeta))
  (s : manager) :
  clock (fold_left evict_if_expired entries s) = clock s.
Proof.
  revert s. induction entries as [|e r IH]; intros s; simpl; [reflexivity|].
  now rewrite IH, evict_clock.
Qed.














End ConstructionFacts.



(* ================================================================== *)
(** ** C8: nested child assignment through [setChildOf] *)

Lemma raw_of_no_computed (v r : obj) :
  plain_item v = true -> raw_of v = Some r -> lookup "computed" r = None.
Proof.
  unfold raw_of. destruct (isItemWithComputed v) eqn:E.
  - intros _. simpl. destruct (_ =? 0)%nat; [discriminate|].
    intros [= <-]. apply lookup_obj_delete_eq.
  - intros H [= <-]. now apply not_with_computed_plain.
Qed.

Lemma raw_of_fixed (r : obj) :
  lookup "computed" r = None -> raw_of r = Some r.
Proof.
  intros H. unfold raw_of, isItemWithComputed, has_key. rewrite H.
  now rewrite andb_false_r.
Qed.

Lemma raw_of_with_computed (r : obj) (c : value) :
  plain_item r = true -> lookup "computed" r = None ->
  raw_of (obj_set "computed" c r)
  = if isNullish c then Some (obj_set "computed" c r) else Some r.
Proof.
  intros Hp Hr. unfold raw_of, isItemWithComputed, has_key. simpl get_prop.
  rewrite lookup_obj_set_eq. destruct (isNullish c); simpl; [reflexivity|].
  rewrite obj_delete_obj_set, (obj_delete_absent _ _ Hr), length_map.
  unfold plain_item in Hp. apply andb_true_iff in Hp as [Hp _].
  apply negb_true_iff in Hp. now rewrite Hp.
Qed.

Section SetChildFacts.
Context {cfg : Config}.

Lemma setAndWatchGetters_raw (id : string) (r : obj) (s : manager) :
  plain_item r = true -> lookup "computed" r = None ->
  slot id (recordRaw (setAndWatchGetters id (Some r) s)) = Some r.
Proof.
  intros Hp Hr. unfold setAndWatchGetters.
  destruct (_ || _).
  - destruct (setRecordItem_slots id (Some r) s) as [H _].
    now rewrite H, raw_of_fixed.
  - destruct (initComputeds id (Some r) s) as [itemComputed s1].
    destruct (isEqual _ _).
    + destruct (setRecordItem_slots id (Some r) s1) as [H _].
      now rewrite H, raw_of_fixed.
    + match goal with |- context [watchComputedGetters id ?s2] =>
        destruct (watchComputedGetters_step id s2) as (A & _) end.
      rewrite A.
      match goal with |- context [setRecordItem id (Some ?v) s1] =>
        destruct (setRecordItem_slots id (Some v) s1) as [H _] end.
      rewrite H. simpl spread. now rewrite raw_of_with_computed.
Qed.

(** [set] leaves the kept record in the raw store, under its id. *)
Lemma set_raw (i r : obj) (s : manager) :
  plain_item i = true -> raw_of i = Some r ->
  slot (js_string (get_prop (VObj r) "id")) (recordRaw (set (Some i) s))
  = Some r.
Proof.
  intros Hp Hr. unfold set. fold (raw_of i). rewrite Hr.
  apply setAndWatchGetters_raw.
  - eapply raw_of_plain; eassumption.
  - eapply raw_of_no_computed; eassumption.
Qed.

Lemma getRaw_present (id : string) (r : obj) (s : manager) :
  slot id (recordRaw s) = Some r -> getRaw id s = (Some r, s).
Proof.
  intros H. unfold getRaw, read_slot. unfold slot in H.
  destruct (lookup id (recordRaw s)) as [[x|]|] eqn:E; try discriminate.
  simpl. unfold slot. rewrite E. now rewrite H.
Qed.

(** C8: on a stored record [{id: 'a', items: [{name: 'y'}]}],
    [setChildOf('a', 'items/0/name', 'x')] is [set] of the record in
    which only that name is replaced, and [getRaw('a')] then answers that
    record. *)
Theorem setChildOf_nested_name (s : manager) :
  itemWithComputedToRaw (slot "a" (recordWithComputeds s))
  = Some (record_items "y") ->
  setNestedChildOnRecord (record_items "y") "items/0/name" (VStr "x")
  = record_items "x"
  /\ setChildOf "a" "items/0/name" (VStr "x") s
     = set (Some (record_items "x")) s
  /\ getRaw "a" (setChildOf "a" "items/0/name" (VStr "x") s)
     = (Some (record_items "x"),
        setChildOf "a" "items/0/name" (VStr "x") s)
  /\ get_prop
       (get_prop (get_prop (VObj (record_items "x")) "items") "0") "name"
     = VStr "x".
Proof.
  intros H.
  assert (E : setChildOf "a" "items/0/name" (VStr "x") s
              = set (Some (record_items "x")) s).
  { assert (Ht : truthy (read_slot "a" (recordWithComputeds s)) = true).
    { unfold read_slot. unfold slot in H.
      destruct (lookup "a" (recordWithComputeds s)) as [[c|]|];
        try discriminate. reflexivity. }
    assert (Hs : as_record (read_slot "a" (recordWithComputeds s))
                 = slot "a" (recordWithComputeds s)).
    { destruct (slot "a" (recordWithComputeds s)) as [c|] eqn:Hc;
        [|discriminate]. rewrite <- Hc. eapply as_record_stored, Hc. }
    unfold setChildOf. rewrite Hs, H, Ht. reflexivity. }
  split; [reflexivity|]. split; [exact E|]. split; [|reflexivity].
  rewrite E. apply getRaw_present.
  apply (set_raw (record_items "x") (record_items "x") s); reflexivity.
Qed.

End SetChildFacts.

Lemma setChildOf_nested_name_witness :
  let s := fire (cfg := cfg_double) "a" "double"
             (set (cfg := cfg_double) (Some (record_items "y"))
                (empty_manager 0)) in
  itemWithComputedToRaw (slot "a" (recordWithComputeds s))
  = Some (record_items "y")
  /\ fst (getRaw (cfg := cfg_double) "a"
            (setChildOf (cfg := cfg_double) "a" "items/0/name" (VStr "x") s))
     = Some (record_items "x").
Proof.
  intros s. split; [reflexivity|].
  destruct (setChildOf_nested_name (cfg := cfg_double) s eq_refl)
    as (_ & _ & H & _).
  now rewrite H.
Defined.

(* ================================================================== *)
(** ** C9: the tagged serialisation of [Map] and [Set] *)

Lemma fold_max_le {A : Type} (f : A -> nat) (l : list A) (x : A) :
  In x l -> f x <= fold_right (fun a n => Nat.max (f a) n) 0 l.
Proof.
  induction l as [|a r IH]; simpl; [tauto|].
  intros [->|H]; [lia|]. specialize (IH H). lia.
Qed.

Lemma depth_arr (l : list value) (x : value) :
  In x l -> depth x < depth (VArr l).
Proof. intros H. simpl. apply (fold_max_le depth) in H. lia. Qed.

Lemma depth_set (l : list value) (x : value) :
  In x l -> depth x < depth (VSet l).
Proof. intros H. simpl. apply (fold_max_le depth) in H. lia. Qed.

Lemma depth_obj (o : obj) (kx : string * value) :
  In kx o -> depth (snd kx) < depth (VObj o).
Proof.
  intros H. simpl. apply (fold_max_le (fun kx => depth (snd kx))) in H. lia.
Qed.

Lemma depth_map (m : list (value * value)) (kv : value * value) :
  In kv m -> depth (fst kv) < depth (VMap m) /\ depth (snd kv) < depth (VMap m).
Proof.
  intros H. simpl.
  apply (fold_max_le (fun kv => Nat.max (depth (fst kv)) (depth (snd kv)))) in H.
  lia.
Qed.

Lemma map_index_from {B : Type} (F : string -> value -> B) (G : value -> B)
  (l : list value) (i : nat) :
  (forall x, In x l -> forall k, F k x = G x) ->
  map (fun ix => F (fst ix) (snd ix)) (index_from i l) = map G l.
Proof.
  revert i. induction l as [|x r IH]; intros i H; simpl; [reflexivity|].
  rewrite (H x (or_introl eq_refl)), IH; [reflexivity|].
  intros y Hy. apply H. now right.
Qed.

Lemma flat_map_ext_in {A B : Type} (f g : A -> list B) (l : list A) :
  (forall a, In a l -> f a = g a) -> flat_map f l = flat_map g l.
Proof.
  induction l as [|a r IH]; intros H; simpl; [reflexivity|].
  rewrite (H a (or_introl eq_refl)), IH; [reflexivity|].
  intros b Hb. apply H. now right.
Qed.

(** The fuel of [JSON_stringify] is enough: with three levels of fuel for
    each level of the value, the walk with [replacer] gives the tagged
    tree of the value, whatever the key. *)
Ltac peel :=
  repeat match goal with
         | |- map _ _ = map _ _ => fail 1
         | |- _ => f_equal; []
         end.

Lemma serialize_fuel_enough (v : value) :
  forall (fuel : nat) (key : string),
    3 * depth v < fuel -> serialize_fuel fuel replacer key v = tagged_tree v.
Proof.
  induction v as [| | | | | |l IH|o IH|m IH|l IH|] using value_ind;
    intros fuel key Hn; try (destruct fuel; [lia|]; reflexivity).
  - (* arrays *)
    destruct fuel as [|n]; [lia|]. cbn [serialize_fuel replacer tagged_tree].
    peel.
    apply (map_index_from
             (fun k x => or_null (serialize_fuel n replacer k x))
             (fun x => or_null (tagged_tree x))).
    intros x Hx k. rewrite Forall_forall in IH.
    rewrite (IH x Hx); [reflexivity|].
    pose proof (depth_arr l x Hx). lia.
  - (* objects *)
    destruct fuel as [|n]; [lia|]. cbn [serialize_fuel replacer tagged_tree].
    do 2 f_equal. apply flat_map_ext_in. intros kx Hkx.
    rewrite Forall_forall in IH. rewrite (IH kx Hkx); [reflexivity|].
    pose proof (depth_obj o kx Hkx). lia.
  - (* maps *)
    assert (Hd : 1 <= depth (VMap m)) by (simpl; lia).
    destruct fuel as [|[|[|n]]]; try lia.
    cbn [serialize_fuel replacer tagged_tree flat_map property fst snd app].
    rewrite (map_index_from
               (fun k x => or_null (serialize_fuel (S n) replacer k x))
               (fun x => or_null (serialize_fuel (S n) replacer "" x)))
      by reflexivity.
    rewrite map_map. peel. apply map_ext_in. intros kv Hkv.
    rewrite Forall_forall in IH. destruct (IH kv Hkv) as [Hk Hx].
    destruct (depth_map m kv Hkv) as [Dk Dx].
    cbn [serialize_fuel replacer or_null map index_from fst snd].
    rewrite Hk, Hx by lia. reflexivity.
  - (* sets *)
    assert (Hd : 1 <= depth (VSet l)) by (simpl; lia).
    destruct fuel as [|[|n]]; try lia.
    cbn [serialize_fuel replacer tagged_tree flat_map property fst snd app].
    peel.
    apply (map_index_from
             (fun k x => or_null (serialize_fuel n replacer k x))
             (fun x => or_null (tagged_tree x))).
    intros x Hx k. rewrite Forall_forall in IH.
    rewrite (IH x Hx); [reflexivity|].
    pose proof (depth_set l x Hx). lia.
Qed.

Lemma JSON_stringify_tagged (v : value) : JSON_stringify v = tagged_tree v.
Proof. unfold JSON_stringify. apply serialize_fuel_enough. lia. Qed.

Lemma internalize_arr (rev : string -> value -> option value) (name : string)
  (l : list value) :
  internalize rev name (VArr l)
  = match traverse_indexed (internalize rev) 0 l with
    | Some l' => rev name (VArr l')
    | None => None
    end.
Proof. reflexivity. Qed.

Lemma internalize_obj (rev : string -> value -> option value) (name : string)
  (o : obj) :
  internalize rev name (VObj o)
  = match traverse (fun kx => option_map (pair (fst kx))
                                (internalize rev (fst kx) (snd kx))) o with
    | Some o' =>
        rev name (VObj (filter (fun kx => negb (strict_eq (snd kx) VUndef)) o'))
    | None => None
    end.
Proof. reflexivity. Qed.

Lemma traverse_indexed_map {A B C : Type} (f : string -> A -> option B)
  (g : C -> A) (h : C -> B) (l : list C) (i : nat) :
  (forall x, In x l -> forall k, f k (g x) = Some (h x)) ->
  traverse_indexed f i (map g l) = Some (map h l).
Proof.
  revert i. induction l as [|x r IH]; intros i H; simpl; [reflexivity|].
  rewrite (H x (or_introl eq_refl)). simpl.
  fold (traverse_indexed f). rewrite IH; [reflexivity|].
  intros y Hy. apply H. now right.
Qed.

Lemma traverse_map {A B C : Type} (f : A -> option B) (g : C -> A)
  (h : C -> B) (l : list C) :
  (forall x, In x l -> f (g x) = Some (h x)) ->
  traverse f (map g l) = Some (map h l).
Proof.
  induction l as [|x r IH]; intros H; simpl; [reflexivity|].
  rewrite (H x (or_introl eq_refl)). simpl.
  fold (traverse f). rewrite IH; [reflexivity|].
  intros y Hy. apply H. now right.
Qed.

Lemma flat_map_single {A B : Type} (g : A -> B) (l : list A) :
  flat_map (fun a => [g a]) l = map g l.
Proof. induction l as [|a r IH]; simpl; [reflexivity | now rewrite IH]. Qed.

Lemma same_value_zero_sym (a b : value) :
  same_value_zero a b = same_value_zero b a.
Proof.
  destruct a, b; simpl; try reflexivity.
  - now destruct b, b0.
  - apply Z.eqb_sym.
  - apply String.eqb_sym.
  - apply String.eqb_sym.
Qed.

Lemma svz_distinct_before (l1 l2 : list value) (k a : value) :
  svz_distinct (l1 ++ k :: l2) = true -> In a l1 ->
  same_value_zero k a = false.
Proof.
  induction l1 as [|b r IH]; simpl; [tauto|].
  intros H Hin. apply andb_true_iff in H as [Hb Hr].
  destruct Hin as [->|Hin]; [|now apply IH].
  apply negb_true_iff in Hb. rewrite same_value_zero_sym.
  destruct (same_value_zero a k) eqn:E; [|reflexivity].
  rewrite <- Hb. symmetry. apply existsb_exists. exists k. split; [|exact E].
  apply in_or_app. right. now left.
Qed.

Lemma map_set_fresh (k x : value) (acc : list (value * value)) :
  (forall a, In a (map fst acc) -> same_value_zero k a = false) ->
  map_set k x acc = (acc ++ [(k, x)])%list.
Proof.
  induction acc as [|[k' x'] r IH]; simpl; intros H; [reflexivity|].
  rewrite (H k' (or_introl eq_refl)), IH; [reflexivity|].
  intros a Ha. apply H. now right.
Qed.

Lemma map_of_entries_pairs (m acc : list (value * value)) :
  svz_distinct (map fst acc ++ map fst m) = true ->
  map_of_entries (map (fun kv => VArr [fst kv; snd kv]) m) acc
  = Some (acc ++ m)%list.
Proof.
  revert acc. induction m as [|[k x] r IH]; intros acc H; simpl.
  - now rewrite app_nil_r.
  - change (get_prop (VArr [k; x]) "0") with k.
    change (get_prop (VArr [k; x]) "1") with x.
    rewrite map_set_fresh.
    + rewrite IH; [now rewrite <- app_assoc|].
      now rewrite map_app, <- app_assoc.
    + intros a Ha. eapply svz_distinct_before; eassumption.
Qed.

Lemma set_add_all (l acc : list value) :
  svz_distinct (acc ++ l) = true ->
  fold_left (fun l x => set_add x l) l acc = (acc ++ l)%list.
Proof.
  revert acc. induction l as [|x r IH]; intros acc H; simpl.
  - now rewrite app_nil_r.
  - unfold set_add at 2.
    assert (E : existsb (same_value_zero x) acc = false).
    { destruct (existsb (same_value_zero x) acc) eqn:E; [|reflexivity].
      apply existsb_exists in E as (a & Ha & E).
      now rewrite (svz_distinct_before acc r x a H Ha) in E. }
    rewrite E, IH; now rewrite <- app_assoc.
Qed.

Lemma untagged_not_undefined (v : value) :
  untagged_json v = true -> strict_eq v VUndef = false.
Proof. now destruct v. Qed.

Lemma filter_defined (o : obj) :
  forallb (fun kx => untagged_json (snd kx)) o = true ->
  filter (fun kx => negb (strict_eq (snd kx) VUndef)) o = o.
Proof.
  induction o as [|kx r IH]; simpl; [reflexivity|].
  intros H. apply andb_true_iff in H as [Hx Hr].
  now rewrite (untagged_not_undefined _ Hx), IH.
Qed.

Lemma reviver_array (name : string) (l : list value) :
  reviver name (VArr l) = Some (VArr l).
Proof. reflexivity. Qed.

Lemma reviver_untagged (name : string) (o : obj) :
  has_container_tag o = false -> reviver name (VObj o) = Some (VObj o).
Proof.
  unfold has_container_tag, reviver. intros H.
  apply orb_false_iff in H as [H1 H2]. simpl is_object. cbv iota.
  now rewrite H1, H2.
Qed.

Lemma internalize_tagged (name tag : string) (l : list value) :
  internalize reviver name (VObj [("dataType", VStr tag); ("value", VArr l)])
  = match traverse_indexed (internalize reviver) 0 l with
    | Some l' =>
        reviver name (VObj [("dataType", VStr tag); ("value", VArr l')])
    | None => None
    end.
Proof.
  rewrite internalize_obj. cbn [traverse fst snd].
  change (internalize reviver "dataType" (VStr tag)) with (Some (VStr tag)).
  rewrite internalize_arr.
  destruct (traverse_indexed (internalize reviver) 0 l) as [l'|];
    reflexivity.
Qed.

Lemma reviver_map_tag (name : string) (x : value) :
  reviver name (VObj [("dataType", VStr "Map"); ("value", x)]) = newMap x.
Proof. reflexivity. Qed.

Lemma reviver_set_tag (name : string) (x : value) :
  reviver name (VObj [("dataType", VStr "Set"); ("value", x)]) = newSet x.
Proof. reflexivity. Qed.

Lemma newMap_pairs (m : list (value * value)) :
  svz_distinct (map fst m) = true ->
  newMap (VArr (map (fun kv => VArr [fst kv; snd kv]) m)) = Some (VMap m).
Proof.
  intros H. unfold newMap. cbn [isNullish iterate].
  now rewrite (map_of_entries_pairs m []).
Qed.

Lemma newSet_elements (l : list value) :
  svz_distinct l = true -> newSet (VArr l) = Some (VSet l).
Proof.
  intros H. unfold newSet. cbn [isNullish iterate].
  now rewrite (set_add_all l []).
Qed.

(** Parsing the tagged tree of a value gives the value back. *)
Lemma parse_tagged (v : value) :
  untagged_json v = true ->
  tagged_tree v <> None
  /\ forall name, internalize reviver name (or_null (tagged_tree v)) = Some v.
Proof.
  induction v as [| | | | | |l IH|o IH|m IH|l IH|] using value_ind;
    intros Hv; try discriminate; try (split; [discriminate | reflexivity]).
  - (* arrays *)
    split; [discriminate|]. intros name. simpl in Hv.
    rewrite forallb_forall in Hv. rewrite Forall_forall in IH.
    cbn [tagged_tree or_null]. rewrite internalize_arr.
    rewrite (traverse_indexed_map (internalize reviver)
               (fun x => or_null (tagged_tree x)) (fun x => x)).
    + now rewrite map_id.
    + intros x Hx k. apply (IH x Hx). now apply Hv.
  - (* objects *)
    split; [discriminate|]. intros name. simpl in Hv.
    apply andb_true_iff in Hv as [Htag Hv]. apply negb_true_iff in Htag.
    pose proof Hv as Hall.
    rewrite forallb_forall in Hv. rewrite Forall_forall in IH.
    cbn [tagged_tree or_null].
    rewrite (flat_map_ext_in
               (fun kx => property (fst kx) (tagged_tree (snd kx)))
               (fun kx => [(fst kx, or_null (tagged_tree (snd kx)))])).
    2:{ intros kx Hkx. destruct (IH kx Hkx (Hv kx Hkx)) as [Hne _].
        now destruct (tagged_tree (snd kx)). }
    rewrite flat_map_single, internalize_obj.
    rewrite (traverse_map _ (fun kx => (fst kx, or_null (tagged_tree (snd kx))))
               (fun kx => kx)).
    + rewrite map_id, (filter_defined o Hall). now apply reviver_untagged.
    + intros kx Hkx. cbn [fst snd].
      destruct (IH kx Hkx (Hv kx Hkx)) as [_ Hr]. rewrite Hr.
      now destruct kx.
  - (* maps *)
    split; [discriminate|]. intros name. simpl in Hv.
    apply andb_true_iff in Hv as [Hd Hv].
    rewrite forallb_forall in Hv. rewrite Forall_forall in IH.
    cbn [tagged_tree or_null]. rewrite internalize_tagged.
    rewrite (traverse_indexed_map (internalize reviver)
               (fun kv => VArr [or_null (tagged_tree (fst kv));
                                or_null (tagged_tree (snd kv))])
               (fun kv => VArr [fst kv; snd kv])).
    + rewrite reviver_map_tag. now apply newMap_pairs.
    + intros kv Hkv k. specialize (Hv kv Hkv).
      apply andb_true_iff in Hv as [Hk Hx].
      destruct (IH kv Hkv) as [IHk IHx].
      destruct (IHk Hk) as [_ Rk]. destruct (IHx Hx) as [_ Rx].
      rewrite internalize_arr. cbn [traverse_indexed].
      rewrite Rk, Rx. reflexivity.
  - (* sets *)
    split; [discriminate|]. intros name. simpl in Hv.
    apply andb_true_iff in Hv as [Hd Hv].
    rewrite forallb_forall in Hv. rewrite Forall_forall in IH.
    cbn [tagged_tree or_null]. rewrite internalize_tagged.
    rewrite (traverse_indexed_map (internalize reviver)
               (fun x => or_null (tagged_tree x)) (fun x => x)).
    + rewrite map_id, reviver_set_tag. now apply newSet_elements.
    + intros x Hx k. apply (IH x Hx). now apply Hv.
Qed.

(** C9, as stated, fails: a plain object that happens to carry the tag of
    a container is indistinguishable from a serialised container and comes
    back as one.  Here [v] holds a [Map] and the plain object
    [{dataType: 'Set', value: [1, 1]}]. *)
Lemma tagged_roundtrip_fails :
  let v := VObj [("m", VMap [(VStr "k", VNum 1)]);
                 ("o", VObj [("dataType", VStr "Set");
                             ("value", VArr [VNum 1; VNum 1])])] in
  untagged_json v = false
  /\ roundtrip v
     = Some (VObj [("m", VMap [(VStr "k", VNum 1)]); ("o", VSet [VNum 1])])
  /\ roundtrip v <> Some v.
Proof. vm_compute. repeat split. discriminate. Qed.

(** C9, amended: a value that JSON represents and in which no plain
    object has a [dataType] property equal to ['Map'] or ['Set'] is
    serialised with [replacer] and parsed with [reviver] into itself,
    [Map]s and [Set]s included. *)
Theorem tagged_roundtrip (v : value) :
  untagged_json v = true ->
  roundtrip v = Some v
  /\ forall data : string, forceParse data (JSON_stringify v) = v.
Proof.
  intros Hv. unfold roundtrip, forceParse, JSON_parse.
  rewrite JSON_stringify_tagged.
  destruct (parse_tagged v Hv) as [Hne Hr].
  destruct (tagged_tree v) as [j|]; [|congruence].
  simpl in Hr. rewrite Hr. auto.
Qed.

Lemma tagged_roundtrip_witness :
  let v := VObj [("m", VMap [(VStr "k", VSet [VNum 1; VNum 2]);
                             (VNum 3, VMap [])]);
                 ("l", VArr [VNull; VBool true; VStr "dataType"])] in
  untagged_json v = true
  /\ roundtrip v = Some v
  /\ forceParse "" (JSON_stringify v) = v.
Proof.
  intros v. split; [reflexivity|].
  destruct (tagged_roundtrip v eq_refl) as [H1 H2].
  split; [exact H1 | apply H2].
Defined.

(* ================================================================== *)
(** ** The fuel of [diffObjectsDeep] *)

Lemma string_chars_not_object (s : string) (i : nat) :
  is_object (nth i (string_chars s) VUndef) = false.
Proof.
  revert i. induction s as [|c r IH]; intros [|i]; simpl; auto.
Qed.

Lemma get_prop_depth (v : value) (k : string) :
  is_object (get_prop v k) = true -> depth (get_prop v k) < depth v.
Proof.
  destruct v; simpl; try discriminate.
  - destruct (String.eqb k "length"); [discriminate|].
    destruct (key_index k) as [i|]; [|discriminate].
    rewrite string_chars_not_object. discriminate.
  - destruct (String.eqb k "length"); [discriminate|].
    destruct (key_index k) as [i|]; [|discriminate].
    destruct (nth_in_or_default i l VUndef) as [Hin| ->]; [|discriminate].
    intros _. apply (fold_max_le depth) in Hin. lia.
  - destruct (lookup k o) as [x|] eqn:E; [|discriminate].
    intros _. apply lookup_In in E.
    apply (fold_max_le (fun kx => depth (snd kx))) in E. simpl in E. lia.
Qed.

Lemma member_object (v : value) (k : string) :
  is_object (member v k) = true -> member v k = get_prop v k.
Proof.
  destruct v; try reflexivity. cbn [member get_prop].
  destruct (lookup k o); [reflexivity|].
  destruct (inherited_member k) as [f|] eqn:E; [|reflexivity].
  rewrite (inherited_member_fun _ _ E). discriminate.
Qed.

Lemma member_depth (v : value) (k : string) :
  is_object (member v k) = true -> depth (member v k) < depth v.
Proof.
  intros H. pose proof (member_object _ _ H) as E. rewrite E in H |- *.
  now apply get_prop_depth.
Qed.

Lemma fold_left_pointwise {A B : Type} (f g : A -> B -> A) (l : list B) (a : A) :
  (forall x y, f x y = g x y) -> fold_left f l a = fold_left g l a.
Proof.
  intros H. revert a. induction l as [|y r IH]; intros a; simpl;
    [reflexivity|]. now rewrite H, IH.
Qed.

(** Fuel above the depth of the first argument is enough: more fuel does
    not change the answer of [diffObjectsDeep_fuel]. *)
Lemma diffObjectsDeep_fuel_stable (n m : nat) :
  forall (a b : value) (path : list string) (allowNullish : bool) (acc : obj),
    depth a < n -> depth a < m ->
    diffObjectsDeep_fuel n a b path allowNullish acc
    = diffObjectsDeep_fuel m a b path allowNullish acc.
Proof.
  revert m. induction n as [|n IH]; intros m a b path allow acc Hn Hm; [lia|].
  destruct m as [|m]; [lia|].
  cbn [diffObjectsDeep_fuel].
  match goal with
  | |- (let '(_, _) := fold_left ?f ?l ?i in _)
       = (let '(_, _) := fold_left ?g _ _ in _) =>
      assert (E : fold_left f l i = fold_left g l i)
  end.
  { apply fold_left_pointwise. intros [result acc0] key.
    destruct (is_object (if allow && isNullish
                                      (member (nullish_or a (VObj [])) key)
                         then VNull
                         else member (nullish_or a (VObj [])) key)) eqn:E1;
      [|reflexivity].
    cbn [andb].
    destruct (is_object (if allow && isNullish
                                      (member (nullish_or b (VObj [])) key)
                         then VNull
                         else member (nullish_or b (VObj [])) key));
      [|reflexivity].
    rewrite (IH m); [reflexivity| |];
      (destruct (allow && isNullish _); [discriminate|];
       unfold nullish_or in *; destruct (isNullish a);
       [cbn [member lookup] in E1;
        destruct (inherited_member key) as [f|] eqn:Ef;
        [rewrite (inherited_member_fun _ _ Ef) in E1|]; discriminate|];
       apply member_depth in E1; lia). }
  now rewrite E.
Qed.

Lemma diffObjectsDeep_fuel_enough (n : nat) (a b : value) :
  depth a < n ->
  fst (diffObjectsDeep_fuel n a b [] false []) = diffObjectsDeep a b.
Proof.
  intros H. unfold diffObjectsDeep.
  rewrite (diffObjectsDeep_fuel_stable n (S (depth a))); [reflexivity|lia|lia].
Qed.

(* ================================================================== *)
(** ** Paths: joining the remaining pieces and splitting them again *)

Lemma append_cons_assoc (a : string) (c : ascii) (b : string) :
  ((a ++ String c "") ++ b = a ++ String c b)%string.
Proof. induction a as [|x a IH]; simpl; [reflexivity | now rewrite IH]. Qed.

Lemma append_empty_r (a : string) : (a ++ "")%string = a.
Proof. induction a as [|x a IH]; simpl; [reflexivity | now rewrite IH]. Qed.

Lemma split_from_piece (k cur : string) :
  includes_slash k = false -> split_from cur k = [(cur ++ k)%string].
Proof.
  revert cur. induction k as [|c r IH]; intros cur H; simpl.
  - now rewrite append_empty_r.
  - simpl in H. apply orb_false_iff in H as [Hc Hr]. rewrite Hc.
    rewrite IH by assumption. now rewrite append_cons_assoc.
Qed.

Lemma split_from_slash (k cur rest : string) :
  includes_slash k = false ->
  split_from cur (k ++ String "/" rest) = (cur ++ k)%string :: split_from "" rest.
Proof.
  revert cur. induction k as [|c r IH]; intros cur H; simpl.
  - now rewrite append_empty_r.
  - simpl in H. apply orb_false_iff in H as [Hc Hr]. rewrite Hc.
    rewrite IH by assumption. now rewrite append_cons_assoc.
Qed.

Lemma includes_slash_app (a b : string) :
  includes_slash (a ++ b) = includes_slash a || includes_slash b.
Proof.
  induction a as [|c a IH]; simpl; [reflexivity|].
  now rewrite IH, orb_assoc.
Qed.

Lemma split_from_pieces (s cur : string) :
  includes_slash cur = false ->
  Forall (fun k => includes_slash k = false) (split_from cur s).
Proof.
  revert cur. induction s as [|c r IH]; intros cur H; simpl.
  - now constructor.
  - destruct (Ascii.eqb c "/") eqn:E.
    + constructor; [assumption | now apply IH].
    + apply IH. rewrite includes_slash_app, H. simpl. now rewrite E.
Qed.

(** The pieces of a path, joined with ['/'], split into the same pieces. *)
Lemma split_join (keys : list string) :
  keys <> [] ->
  Forall (fun k => includes_slash k = false) keys ->
  split_path (join "/" keys) = keys.
Proof.
  unfold split_path. induction keys as [|k r IH]; intros Hne H; [congruence|].
  inversion H as [|? ? Hk Hr]; subst. destruct r as [|k' r].
  - simpl. now apply split_from_piece.
  - change (join "/" (k :: k' :: r))
      with (k ++ String "/" (join "/" (k' :: r)))%string.
    rewrite split_from_slash by assumption. simpl append at 1.
    rewrite IH; [reflexivity | discriminate | assumption].
Qed.

(** The recursive calls of [setNestedChildOnRecord], which take the rest
    of the path joined again, work on the rest of the pieces. *)
Lemma setNestedChildOnRecord_rest (o : obj) (path : string) (v : value)
  (key : string) (rest : list string) :
  split_path path = key :: rest -> rest <> [] ->
  setNestedChildOnRecord o (join "/" rest) v = setNestedKeys (VObj o) rest v.
Proof.
  intros Hp Hne. unfold setNestedChildOnRecord. rewrite split_join; auto.
  pose proof (split_from_pieces path "" eq_refl) as H.
  fold (split_path path) in H. rewrite Hp in H. now inversion H.
Qed.

(* ================================================================== *)
(** ** A new manager has consistent stores *)



Lemma lookup_absent_keys {A : Type} (k : string) (o : list (string * A)) :
  lookup k o = None <-> ~ In k (objectKeys o).
Proof.
  induction o as [|[k' v] r IH]; simpl; [tauto|].
  destruct (String.eqb k k') eqn:E.
  - apply String.eqb_eq in E. subst. split; [discriminate | tauto].
  - apply String.eqb_neq in E. rewrite IH. split; [|tauto].
    intros H [H'|H']; [congruence | tauto].
Qed.







Section NewManagerFacts.
Context {cfg : Config}.









End NewManagerFacts.

(* ================================================================== *)
(** ** C1: the computed store against the raw store *)

Lemma consistent_empty (now : Z) : consistent (empty_manager now).
Proof. intros id. reflexivity. Qed.




(* ================================================================== *)
(** * Further properties of the sources

    What follows covers code that the statements above leave aside: the
    rest of the manager's surface, the shallow diff, the object
    utilities, the storage adapter and [autoState]. *)

(* ================================================================== *)
(** ** Equality of a value with itself *)

Lemma fold_left_fixed {A B : Type} (f : A -> B -> A) (l : list B) (a : A) :
  (forall x, In x l -> f a x = a) -> fold_left f l a = a.
Proof.
  induction l as [|x r IH]; simpl; intros H; [reflexivity|].
  rewrite (H x (or_introl eq_refl)). apply IH. intros y Hy. apply H. now right.
Qed.

Lemma nth_nan_free (l : list value) (i : nat) :
  forallb nan_free l = true -> nan_free (nth i l VUndef) = true.
Proof.
  revert i. induction l as [|x r IH]; intros [|i] H; simpl in *;
    try reflexivity; apply andb_true_iff in H as [Hx Hr]; auto.
Qed.

Lemma string_chars_nan_free (s : string) :
  forallb nan_free (string_chars s) = true.
Proof. induction s; simpl; auto. Qed.

Lemma get_prop_nan_free (v : value) (k : string) :
  nan_free v = true -> nan_free (get_prop v k) = true.
Proof.
  destruct v; simpl; intros H; try reflexivity.
  - destruct (String.eqb k "length"); [reflexivity|].
    destruct (key_index k); [|reflexivity].
    apply nth_nan_free, string_chars_nan_free.
  - destruct (String.eqb k "length"); [reflexivity|].
    destruct (key_index k); [|reflexivity]. now apply nth_nan_free.
  - destruct (lookup k o) as [x|] eqn:E; [|reflexivity].
    apply lookup_In in E. rewrite forallb_forall in H. exact (H _ E).
Qed.

Lemma strict_eq_refl (v : value) :
  nan_free v = true -> is_object v = false -> strict_eq v v = true.
Proof.
  destruct v; simpl; intros H1 H2; try reflexivity; try discriminate.
  - now destruct b.
  - apply Z.eqb_refl.
  - apply String.eqb_refl.
  - apply String.eqb_refl.
Qed.

Lemma member_nan_free (v : value) (k : string) :
  nan_free v = true -> nan_free (member v k) = true.
Proof.
  intros H. pose proof (get_prop_nan_free v k H) as G.
  destruct v; try exact G. cbn [member get_prop] in *.
  destruct (lookup k o); [exact G|].
  destruct (inherited_member k) as [f|] eqn:E; [|reflexivity].
  now rewrite (inherited_member_fun _ _ E).
Qed.

Lemma diff_self (fuel : nat) :
  forall (a : value) (path : list string) (allow : bool) (acc : obj),
    nan_free a = true ->
    diffObjectsDeep_fuel fuel a a path allow acc
    = (match fuel, path with S _, [] => acc | _, _ => [] end, acc).
Proof.
  induction fuel as [|fuel IH]; intros a path allow acc Ha.
  - reflexivity.
  - cbn [diffObjectsDeep_fuel].
    set (prev := nullish_or a (VObj [])).
    assert (Hp : nan_free prev = true)
      by (unfold prev, nullish_or; now destruct (isNullish a)).
    rewrite fold_left_fixed.
    + now destruct path.
    + intros key _.
      set (x := if allow && isNullish (member prev key) then VNull
                else member prev key).
      assert (Hx : nan_free x = true).
      { unfold x. destruct (allow && isNullish (member prev key));
          [reflexivity | now apply member_nan_free]. }
      destruct (is_object x) eqn:Ho; cbn [andb].
      * rewrite (IH x (path ++ [key])%list allow acc Hx).
        now destruct fuel, path.
      * now rewrite (strict_eq_refl x Hx Ho).
Qed.

Lemma typeof_refl (v : value) : jstype_eqb (typeof v) (typeof v) = true.
Proof. now destruct v. Qed.

(** X1: [isEqual] answers [true] on a value and itself whenever no
    [NaN] is reachable in the value through object properties and array
    elements (what a [Map] or a [Set] holds does not matter). *)
Theorem isEqual_reflexive (v : value) :
  nan_free v = true -> isEqual v v = true.
Proof.
  intros H. unfold isEqual. rewrite typeof_refl. cbn [negb].
  destruct (isNullish v) eqn:En; [reflexivity|]. cbn [andb negb].
  destruct (jstype_eqb (typeof v) TObject) eqn:Et; cbn [andb].
  - unfold diffObjectsDeep. now rewrite diff_self.
  - apply strict_eq_refl; [exact H|]. now destruct v.
Qed.

Lemma isEqual_reflexive_witness :
  let v := VObj [("id", VStr "a"); ("tags", VArr [VNum 1; VNull]);
                 ("m", VMap [(VNaN, VNum 1)])] in
  nan_free v = true /\ isEqual v v = true.
Proof.
  intros v. split; [reflexivity|].
  apply (isEqual_reflexive v). reflexivity.
Defined.

Lemma fold_left_hits {A B : Type} (Q : A -> Prop) (f : A -> B -> A)
  (k : B) (l : list B) (a : A) :
  In k l ->
  (forall st, Q (f st k)) ->
  (forall st x, Q st -> Q (f st x)) ->
  Q (fold_left f l a).
Proof.
  intros Hin Hk Hstep. revert a.
  induction l as [|x r IH]; intros a; [contradiction|].
  simpl. destruct Hin as [->|Hin].
  - generalize (f a k) (Hk a). clear -Hstep.
    induction r as [|y r IH]; simpl; intros st H; [exact H|].
    apply IH. now apply Hstep.
  - now apply IH.
Qed.

Lemma fold_left_keeps {A B : Type} (Q : A -> Prop) (f : A -> B -> A)
  (l : list B) (a : A) :
  Q a -> (forall st x, Q st -> Q (f st x)) -> Q (fold_left f l a).
Proof.
  intros Ha Hstep. revert a Ha.
  induction l as [|x r IH]; simpl; intros a Ha; [exact Ha|].
  apply IH. now apply Hstep.
Qed.

Lemma obj_set_nonempty {A : Type} (k : string) (v : A) (o : list (string * A)) :
  obj_set k v o <> [].
Proof. destruct o as [|[k' v'] r]; simpl; [|destruct (String.eqb k k')]; discriminate. Qed.

Lemma diff_acc_grows (fuel : nat) :
  forall (a b : value) (path : list string) (allow : bool) (acc : obj),
    acc <> [] -> snd (diffObjectsDeep_fuel fuel a b path allow acc) <> [].
Proof.
  induction fuel as [|fuel IH]; intros a b path allow acc Hacc; [exact Hacc|].
  cbn [diffObjectsDeep_fuel].
  match goal with
  | |- snd (let '(_, _) := fold_left ?f ?l ?st in _) <> [] =>
      assert (H : snd (fold_left f l st) <> []);
      [|destruct (fold_left f l st); now destruct path]
  end.
  apply fold_left_keeps with (Q := fun st : obj * obj => snd st <> []);
    [exact Hacc|].
  intros [result acc0] key H0. cbn [snd] in H0.
  match goal with
  | |- context [if ?c then _ else _] => destruct c
  end.
  - match goal with
    | |- context [diffObjectsDeep_fuel fuel ?x ?y ?p ?al acc0] =>
        pose proof (IH x y p al acc0 H0) as Hn;
        destruct (diffObjectsDeep_fuel fuel x y p al acc0) as [nested acc1]
    end.
    cbn [snd] in Hn. now destruct (0 <? List.length (objectKeys nested))%nat.
  - match goal with
    | |- context [if ?c then _ else _] => destruct c
    end; [apply obj_set_nonempty | exact H0].
Qed.

Lemma In_dedup (k : string) (l seen : list string) :
  In k l -> existsb (String.eqb k) seen = false -> In k (dedup seen l).
Proof.
  revert seen. induction l as [|x r IH]; intros seen Hin Hs; [contradiction|].
  simpl. destruct (String.eqb_spec k x) as [->|Hne].
  - rewrite Hs. now left.
  - destruct Hin as [Hx|Hin]; [congruence|].
    destruct (existsb (String.eqb x) seen); [now apply IH|].
    right. apply IH; [exact Hin|]. simpl.
    destruct (String.eqb_spec k x); [contradiction | exact Hs].
Qed.

Lemma lookup_key_In {A : Type} (k : string) (v : A) (o : list (string * A)) :
  lookup k o = Some v -> In k (objectKeys o).
Proof.
  intros H. apply lookup_In in H. unfold objectKeys.
  now apply (in_map fst) in H.
Qed.

(** X2: a record that has a [NaN] property is never [isEqual] to
    itself. *)
Theorem isEqual_nan_property (o : obj) (k : string) :
  lookup k o = Some VNaN -> isEqual (VObj o) (VObj o) = false.
Proof.
  intros Hk. unfold isEqual. cbn [typeof jstype_eqb negb isNullish andb].
  apply Nat.eqb_neq. unfold diffObjectsDeep. cbn [diffObjectsDeep_fuel].
  cbn [nullish_or isNullish spread].
  match goal with
  | |- context [fold_left ?f ?l ?st] =>
      assert (H : snd (fold_left f l st) <> []);
      [|destruct (fold_left f l st) as [result acc']; cbn [fst snd] in *;
        destruct acc'; [congruence | discriminate]]
  end.
  apply fold_left_hits with (Q := fun st : obj * obj => snd st <> []) (k := k).
  - apply In_dedup; [|reflexivity]. apply in_or_app. left.
    now apply lookup_key_In with (v := VNaN).
  - intros [result acc0]. cbn [member andb]. rewrite Hk.
    cbn [is_object andb strict_eq negb snd]. apply obj_set_nonempty.
  - intros [result acc0] key H0. cbn [snd] in H0.
    match goal with
    | |- context [if ?c then _ else _] => destruct c
    end.
    + match goal with
      | |- context [diffObjectsDeep_fuel ?n ?x ?y ?p ?al acc0] =>
          pose proof (diff_acc_grows n x y p al acc0 H0) as Hn;
          destruct (diffObjectsDeep_fuel n x y p al acc0) as [nested acc1]
      end.
      cbn [snd] in Hn. now destruct (0 <? List.length (objectKeys nested))%nat.
    + match goal with
      | |- context [if ?c then _ else _] => destruct c
      end; [apply obj_set_nonempty | exact H0].
Qed.

Lemma isEqual_nan_property_witness :
  lookup "ratio" [("id", VStr "a"); ("ratio", VNaN)] = Some VNaN
  /\ isEqual (VObj [("id", VStr "a"); ("ratio", VNaN)])
       (VObj [("id", VStr "a"); ("ratio", VNaN)]) = false.
Proof.
  split; [reflexivity|].
  apply (isEqual_nan_property [("id", VStr "a"); ("ratio", VNaN)] "ratio").
  reflexivity.
Defined.

(** X3: [isEqual] never sees inside a [Map] or a [Set]: any two
    containers are equal, and a container equals the empty object. *)
Theorem isEqual_containers (m1 m2 : list (value * value)) (l1 l2 : list value) :
  isEqual (VMap m1) (VMap m2) = true
  /\ isEqual (VSet l1) (VSet l2) = true
  /\ isEqual (VMap m1) (VSet l2) = true
  /\ isEqual (VMap m1) (VObj []) = true
  /\ isEqual (VObj []) (VSet l2) = true.
Proof. repeat split. Qed.

(* ================================================================== *)
(** ** Equality does not depend on the order of its arguments *)

Lemma dedup_In (k : string) (l seen : list string) :
  In k (dedup seen l) -> In k l.
Proof.
  revert seen. induction l as [|x r IH]; intros seen H; [contradiction|].
  simpl in H. destruct (existsb (String.eqb x) seen).
  - right. now apply IH with (seen := seen).
  - destruct H as [->|H]; [now left | right; now apply IH with (seen := x :: seen)].
Qed.

Lemma strict_eq_sym (a b : value) : strict_eq a b = strict_eq b a.
Proof.
  destruct a, b; simpl; try reflexivity.
  - now destruct b, b0.
  - apply Z.eqb_sym.
  - apply String.eqb_sym.
  - apply String.eqb_sym.
Qed.

Lemma jstype_eqb_sym (a b : jstype) : jstype_eqb a b = jstype_eqb b a.
Proof. now destruct a, b. Qed.

Lemma fold_empty_iff {B : Type} (f : obj * obj -> B -> obj * obj)
  (Q : B -> Prop) (l : list B) :
  (forall r acc k, snd (f (r, acc) k) = [] -> acc = []) ->
  (forall r k, snd (f (r, []) k) = [] <-> Q k) ->
  forall r, snd (fold_left f l (r, [])) = [] <-> (forall k, In k l -> Q k).
Proof.
  intros Hmono HQ. induction l as [|x l IH]; intros r; simpl.
  - split; [intros _ k [] | reflexivity].
  - destruct (f (r, []) x) as [r1 acc1] eqn:E.
    destruct acc1 as [|e acc1].
    + rewrite IH. split.
      * intros H k [<-|Hk]; [|now apply H].
        apply (HQ r). now rewrite E.
      * intros H k Hk. apply H. now right.
    + split.
      * intros H. exfalso.
        assert (Hn : snd (fold_left f l (r1, e :: acc1)) <> []).
        { apply fold_left_keeps with (Q := fun st : obj * obj => snd st <> []);
            [discriminate|].
          intros [r' acc'] k Hne Hs. apply Hne. cbn [snd].
          now apply (Hmono r' acc' k). }
        contradiction.
      * intros H. exfalso.
        pose proof (proj2 (HQ r x) (H x (or_introl eq_refl))) as Hx.
        rewrite E in Hx. discriminate.
Qed.

Lemma diff_step_empty (n : nat) (a b : value) (path : list string)
  (al : bool) :
  snd (diffObjectsDeep_fuel (S n) a b path al []) = []
  <-> forall k,
        In k (objectKeys (spread (nullish_or a (VObj [])))
              ++ objectKeys (spread (nullish_or b (VObj []))))%list ->
        same_at n (nullish_or a (VObj [])) (nullish_or b (VObj [])) path al k.
Proof.
  cbn [diffObjectsDeep_fuel].
  match goal with
  | |- snd (let '(_, _) := fold_left ?f ?l ?i in _) = [] <-> _ =>
      assert (E : snd (let '(result, acc') := fold_left f l i in
                       match path with
                       | [] => (acc', acc')
                       | _ => (result, acc')
                       end) = snd (fold_left f l i))
        by (destruct (fold_left f l i); now destruct path);
      rewrite E; clear E;
      rewrite (fold_empty_iff f
                 (same_at n (nullish_or a (VObj [])) (nullish_or b (VObj []))
                    path al) l)
  end.
  - split; intros H k Hk.
    + apply H. now apply In_dedup.
    + apply H. now apply dedup_In in Hk.
  - intros r acc k. cbv beta iota zeta.
    destruct (is_object _ && is_object _).
    + match goal with
      | |- context [diffObjectsDeep_fuel n ?x ?y ?p ?al0 acc] =>
          pose proof (diff_acc_grows n x y p al0 acc) as Hg;
          destruct (diffObjectsDeep_fuel n x y p al0 acc) as [nested acc1]
      end.
      cbn [snd] in Hg.
      destruct (0 <? List.length (objectKeys nested))%nat; cbn [snd];
        intros ->; destruct acc; [reflexivity | exfalso; now apply Hg
                                 | reflexivity | exfalso; now apply Hg].
    + destruct (negb (strict_eq _ _)); cbn [snd]; [|auto].
      intros H. now apply obj_set_nonempty in H.
  - intros r k. unfold same_at. cbv beta iota zeta.
    destruct (is_object _ && is_object _).
    + destruct (diffObjectsDeep_fuel n _ _ _ al []) as [nested acc1].
      now destruct (0 <? List.length (objectKeys nested))%nat.
    + destruct (strict_eq _ _); cbn [negb snd].
      * now split.
      * split; [|discriminate]. intros H. now apply obj_set_nonempty in H.
Qed.

Lemma diff_empty_sym (n : nat) :
  forall (a b : value) (path : list string) (al : bool),
    snd (diffObjectsDeep_fuel n a b path al []) = []
    <-> snd (diffObjectsDeep_fuel n b a path al []) = [].
Proof.
  induction n as [|n IH]; intros a b path al; [reflexivity|].
  rewrite !diff_step_empty.
  assert (Hs : forall x y k,
             same_at n x y path al k -> same_at n y x path al k).
  { intros x y k. unfold same_at. cbv zeta.
    rewrite (andb_comm (is_object (if al && isNullish (member y k)
                                   then VNull else member y k))).
    destruct (is_object _ && is_object _).
    - apply IH.
    - now rewrite strict_eq_sym. }
  split; intros H k Hk; apply Hs, H;
    apply in_app_or in Hk; apply in_or_app; tauto.
Qed.

(** X4: [isEqual] gives the same answer when its arguments are
    exchanged. *)
Theorem isEqual_symmetric (a b : value) : isEqual a b = isEqual b a.
Proof.
  unfold isEqual. rewrite (jstype_eqb_sym (typeof b) (typeof a)).
  destruct (jstype_eqb (typeof a) (typeof b)) eqn:Et; cbn [negb]; [|reflexivity].
  destruct (isNullish a) eqn:Ea, (isNullish b) eqn:Eb; cbn [andb negb];
    try reflexivity.
  assert (Etb : typeof b = typeof a) by (destruct a, b; now try discriminate).
  rewrite Etb.
  destruct (jstype_eqb (typeof a) TObject); cbn [andb];
    [|rewrite ?typeof_refl; apply strict_eq_sym].
  set (N := S (Nat.max (depth a) (depth b))).
  rewrite <- (diffObjectsDeep_fuel_enough N a b) by (unfold N; lia).
  rewrite <- (diffObjectsDeep_fuel_enough N b a) by (unfold N; lia).
  pose proof (diff_empty_sym N a b [] false) as H.
  assert (Hf : forall x y, fst (diffObjectsDeep_fuel N x y [] false [])
                           = snd (diffObjectsDeep_fuel N x y [] false [])).
  { intros x y. unfold N. cbn [diffObjectsDeep_fuel].
    now destruct (fold_left _ _ _). }
  rewrite !Hf.
  destruct (snd (diffObjectsDeep_fuel N a b [] false [])) as [|e1 l1],
           (snd (diffObjectsDeep_fuel N b a [] false [])) as [|e2 l2];
    try reflexivity.
  - discriminate (proj1 H eq_refl).
  - discriminate (proj2 H eq_refl).
Qed.

(* ================================================================== *)
(** ** The shallow diff *)

Lemma string_set_add_NoDup (x : string) (l : list string) :
  NoDup l -> NoDup (string_set_add x l).
Proof.
  intros H. unfold string_set_add.
  destruct (existsb (String.eqb x) l) eqn:E; [exact H|].
  apply NoDup_app; [exact H | repeat constructor; simpl; tauto |].
  intros y Hy [->|[]].
  assert (Hex : existsb (String.eqb y) l = true)
    by (apply existsb_exists; exists y; split; [exact Hy | apply String.eqb_refl]).
  congruence.
Qed.

Lemma string_set_add_Forall (P : string -> Prop) (x : string) (l : list string) :
  P x -> Forall P l -> Forall P (string_set_add x l).
Proof.
  intros Hx H. unfold string_set_add.
  destruct (existsb (String.eqb x) l); [exact H|].
  apply Forall_app. split; [exact H | now constructor].
Qed.

(** X5: the keys that [diffObjectsShallow] reports are pairwise
    different, none is empty and none contains ['/']. *)
Theorem diffObjectsShallow_keys (a b : value) :
  NoDup (diffObjectsShallow a b)
  /\ Forall (fun k => k <> "" /\ includes_slash k = false)
       (diffObjectsShallow a b).
Proof.
  unfold diffObjectsShallow.
  apply fold_left_keeps
    with (Q := fun l => NoDup l
                        /\ Forall (fun k => k <> "" /\ includes_slash k = false) l).
  - split; constructor.
  - intros st key [Hnd Hall].
    destruct (truthy (VStr (hd "" (split_path key)))) eqn:Et; [|now split].
    split; [now apply string_set_add_NoDup|].
    apply string_set_add_Forall; [|exact Hall]. split.
    + intros Heq. rewrite Heq in Et. discriminate.
    + pose proof (split_from_pieces key "" eq_refl) as Hp.
      fold (split_path key) in Hp.
      destruct (split_path key) as [|p r]; [reflexivity|].
      now inversion Hp.
Qed.

(* ================================================================== *)
(** ** Array indices written in decimal *)

Lemma to_uint_not_nil (i : nat) : Nat.to_uint i <> Decimal.Nil.
Proof.
  intros H. pose proof (Unsigned.of_to i) as Hi. rewrite H in Hi.
  cbn in Hi. subst i. discriminate.
Qed.

Lemma index_key_digits (i : nat) :
  index_key i = NilEmpty.string_of_uint (Nat.to_uint i).
Proof.
  unfold index_key, NilZero.string_of_uint.
  pose proof (to_uint_not_nil i). now destruct (Nat.to_uint i).
Qed.

Lemma key_index_index_key (i : nat) : key_index (index_key i) = Some i.
Proof.
  unfold key_index. unfold index_key at 1.
  rewrite NilZero.usu by apply to_uint_not_nil.
  now rewrite Unsigned.of_to, String.eqb_refl.
Qed.

Lemma read_digits_uint (d : Decimal.uint) :
  forall (a : nat) (seen : bool),
    read_digits (Z.of_nat a) seen (NilEmpty.string_of_uint d)
    = match d with
      | Decimal.Nil => if seen then Some (Z.of_nat a) else None
      | _ => Some (Z.of_nat (Nat.of_uint_acc d a))
      end.
Proof.
  induction d as [|d IH|d IH|d IH|d IH|d IH|d IH|d IH|d IH|d IH|d IH];
    intros a seen; [reflexivity|..];
    cbn [NilEmpty.string_of_uint read_digits Nat.of_uint_acc];
    match goal with
    | |- context [digit_of ?c] =>
        let x := eval vm_compute in (digit_of c) in
        change (digit_of c) with x
    end;
    cbv iota;
    match goal with
    | |- read_digits ?z true _ = _ =>
        match goal with
        | |- context [Nat.of_uint_acc d ?n] =>
            replace z with (Z.of_nat n)
              by (rewrite Nat.tail_mul_spec; lia)
        end
    end;
    rewrite IH; now destruct d.
Qed.

Lemma skip_spaces_digits (d : Decimal.uint) :
  skip_spaces (NilEmpty.string_of_uint d) = NilEmpty.string_of_uint d.
Proof. now destruct d. Qed.

Lemma parseInt10_index_key (i : nat) : parseInt10 (index_key i) = Some (Z.of_nat i).
Proof.
  rewrite index_key_digits. unfold parseInt10. rewrite skip_spaces_digits.
  pose proof (to_uint_not_nil i) as Hn.
  pose proof (read_digits_uint (Nat.to_uint i) 0 false) as Hr.
  pose proof (Unsigned.of_to i) as Hi. unfold Nat.of_uint in Hi.
  destruct (Nat.to_uint i) eqn:E; [congruence|..];
    cbn [NilEmpty.string_of_uint] in *;
    change (Z.of_nat 0) with 0%Z in Hr; rewrite Hr; now rewrite Hi.
Qed.

Lemma includes_slash_digits (d : Decimal.uint) :
  includes_slash (NilEmpty.string_of_uint d) = false.
Proof. induction d; simpl; auto. Qed.

Lemma includes_slash_index_key (i : nat) : includes_slash (index_key i) = false.
Proof. rewrite index_key_digits. apply includes_slash_digits. Qed.

(* ================================================================== *)
(** ** Nested assignment: what is written and what stays *)

Lemma setNestedKeys_first (o : value) (key : string) (rest : list string)
  (v : value) :
  exists x, setNestedKeys o (key :: rest) v = obj_set key x (spread o).
Proof.
  destruct rest as [|k1 rest2]; [now exists v|].
  cbn [setNestedKeys]. destruct (get_prop o key); eauto.
Qed.

Lemma get_path_setNestedKeys (keys : list string) (v : value) :
  forall o : value,
    keys <> [] -> object_path o keys = true ->
    get_path (VObj (setNestedKeys o keys v)) keys = v.
Proof.
  induction keys as [|k r IH]; intros o Hne Hp; [congruence|].
  destruct r as [|k1 r].
  - cbn [setNestedKeys get_path get_prop]. now rewrite lookup_obj_set_eq.
  - cbn [object_path] in Hp.
    assert (Hs : setNestedKeys o (k :: k1 :: r) v
                 = obj_set k (VObj (setNestedKeys (or_empty (get_prop o k))
                                      (k1 :: r) v)) (spread o)
                 /\ object_path (or_empty (get_prop o k)) (k1 :: r) = true).
    { cbn [setNestedKeys]. destruct (get_prop o k); try discriminate;
        now split. }
    destruct Hs as [-> Hp'].
    change (get_path ?x (k :: k1 :: r))
      with (get_path (get_prop x k) (k1 :: r)).
    cbn [get_prop]. rewrite lookup_obj_set_eq.
    apply IH; [discriminate | exact Hp'].
Qed.

(** X6: after a nested assignment whose path goes through objects
    only, reading along the same path gives the assigned value; missing
    intermediate objects are created. *)
Theorem setNested_read_back (o : obj) (path : string) (v : value) :
  object_path (VObj o) (split_path path) = true ->
  get_path (VObj (setNestedChildOnRecord o path v)) (split_path path) = v.
Proof.
  intros H. unfold setNestedChildOnRecord.
  apply get_path_setNestedKeys; [|exact H].
  destruct (split_from_nonempty path "") as (k & rest & E).
  unfold split_path. rewrite E. discriminate.
Qed.

Lemma setNested_read_back_witness :
  let o := [("id", VStr "a"); ("pos", VObj [("x", VNum 1)])] in
  object_path (VObj o) (split_path "pos/size/w") = true
  /\ get_path (VObj (setNestedChildOnRecord o "pos/size/w" (VNum 7)))
       (split_path "pos/size/w") = VNum 7.
Proof.
  intros o. split; [reflexivity|].
  apply (setNested_read_back o "pos/size/w" (VNum 7)). reflexivity.
Defined.

(** X7: a nested assignment changes the top-level property that the
    first piece of the path names and no other: every other property
    reads as before, and only a missing first piece adds a key. *)
Theorem setNested_frame (o : obj) (path : string) (v : value) (k : string) :
  k <> hd "" (split_path path) ->
  lookup k (setNestedChildOnRecord o path v) = lookup k o.
Proof.
  intros Hk. unfold setNestedChildOnRecord.
  destruct (split_from_nonempty path "") as (key & rest & E).
  fold (split_path path) in E. rewrite E in *.
  destruct (setNestedKeys_first (VObj o) key rest v) as [x ->].
  cbn [spread hd] in *. now apply lookup_obj_set_neq.
Qed.

Lemma setNested_frame_witness :
  let o := [("id", VStr "a"); ("pos", VObj [("x", VNum 1)])] in
  "id" <> hd "" (split_path "pos/x")
  /\ lookup "id" (setNestedChildOnRecord o "pos/x" (VNum 7)) = lookup "id" o.
Proof.
  intros o. split; [discriminate|].
  apply (setNested_frame o "pos/x" (VNum 7) "id"). discriminate.
Defined.

Lemma split_path_two (key k1 : string) :
  includes_slash key = false -> includes_slash k1 = false ->
  split_path (key ++ "/" ++ k1) = [key; k1].
Proof.
  intros Hk H1. unfold split_path.
  change (key ++ "/" ++ k1)%string with (key ++ String "/" k1)%string.
  rewrite split_from_slash by exact Hk. now rewrite split_from_piece.
Qed.

Lemma nth_array_store (arr : list value) (i j : nat) (v : value) :
  nth j (array_store arr i v) VUndef = if (j =? i)%nat then v else nth j arr VUndef.
Proof.
  revert arr j. induction i as [|i IH]; intros [|x arr] [|j]; cbn;
    try reflexivity.
  - now destruct j.
  - rewrite IH. destruct (j =? i)%nat; [reflexivity | now destruct j].
  - apply IH.
Qed.

Lemma length_array_store (arr : list value) (i : nat) (v : value) :
  List.length (array_store arr i v) = Nat.max (List.length arr) (S i).
Proof.
  revert arr. induction i as [|i IH]; intros [|x arr]; cbn [array_store List.length].
  - reflexivity.
  - lia.
  - rewrite IH. cbn [List.length]. lia.
  - rewrite IH. lia.
Qed.

(** X8: assigning at [key/i] where [key] holds an array replaces its
    element [i] and nothing else of it; an index past the end makes the
    array grow up to it. *)
Theorem setNested_array_element (o : obj) (key : string) (arr : list value)
  (i : nat) (v : value) :
  lookup key o = Some (VArr arr) ->
  includes_slash key = false ->
  (Z.of_nat i < 4294967295)%Z ->
  let o' := setNestedChildOnRecord o (key ++ "/" ++ index_key i) v in
  get_path (VObj o') [key; index_key i] = v
  /\ get_path (VObj o') [key; "length"]
     = VNum (Z.of_nat (Nat.max (List.length arr) (S i)))
  /\ forall j : nat, j <> i ->
       get_path (VObj o') [key; index_key j]
       = get_path (VObj o) [key; index_key j].
Proof.
  intros Hk Hs Hi o'.
  assert (Ho : o' = obj_set key (VArr (array_store arr i v)) o).
  { unfold o', setNestedChildOnRecord.
    rewrite split_path_two by (exact Hs || apply includes_slash_index_key).
    cbn [setNestedKeys get_prop spread]. rewrite Hk.
    unfold array_write, array_index. rewrite parseInt10_index_key.
    replace ((0 <=? Z.of_nat i) && (Z.of_nat i <? 4294967295))%Z with true
      by (symmetry; apply andb_true_iff; split; [apply Z.leb_le | apply Z.ltb_lt]; lia).
    now rewrite Nat2Z.id. }
  rewrite Ho. cbn [get_path].
  assert (E1 : get_prop (VObj (obj_set key (VArr (array_store arr i v)) o)) key
               = VArr (array_store arr i v))
    by (cbn [get_prop]; now rewrite lookup_obj_set_eq).
  assert (E2 : get_prop (VObj o) key = VArr arr)
    by (cbn [get_prop]; now rewrite Hk).
  rewrite E1, E2.
  assert (Hlen : forall k, String.eqb (index_key k) "length" = false).
  { intros k. apply String.eqb_neq. intros E.
    pose proof (key_index_index_key k) as Hki. rewrite E in Hki. discriminate. }
  assert (Hget : forall (l : list value) (j : nat),
             get_prop (VArr l) (index_key j) = nth j l VUndef).
  { intros l j. cbn [get_prop]. now rewrite Hlen, key_index_index_key. }
  split; [|split].
  - rewrite Hget, nth_array_store. now rewrite Nat.eqb_refl.
  - cbn [get_prop String.eqb Ascii.eqb Bool.eqb]. now rewrite length_array_store.
  - intros j Hj. rewrite !Hget, nth_array_store.
    destruct (Nat.eqb_spec j i); [contradiction | reflexivity].
Qed.

Lemma setNested_array_element_witness :
  let o := [("id", VStr "a"); ("items", VArr [VNum 1; VNum 2])] in
  let o' := setNestedChildOnRecord o ("items" ++ "/" ++ index_key 3) (VStr "z") in
  (lookup "items" o = Some (VArr [VNum 1; VNum 2])
   /\ includes_slash "items" = false
   /\ (Z.of_nat 3 < 4294967295)%Z)
  /\ get_path (VObj o') ["items"; index_key 3] = VStr "z"
  /\ get_path (VObj o') ["items"; "length"]
     = VNum (Z.of_nat (Nat.max (List.length [VNum 1; VNum 2]) (S 3)))
  /\ forall j : nat, j <> 3 ->
       get_path (VObj o') ["items"; index_key j]
       = get_path (VObj o) ["items"; index_key j].
Proof.
  intros o o'. split; [repeat split|].
  apply (setNested_array_element o "items" [VNum 1; VNum 2] 3 (VStr "z"));
    reflexivity.
Defined.

(* ================================================================== *)
(** ** Filters and maps over the values of an object *)

Lemma fold_obj_set_fresh {A : Type} (l acc : list (string * A)) :
  NoDup (objectKeys (acc ++ l)) ->
  fold_left (fun o kv => obj_set (fst kv) (snd kv) o) l acc = (acc ++ l)%list.
Proof.
  revert acc. induction l as [|[k v] r IH]; intros acc H; simpl.
  - now rewrite app_nil_r.
  - assert (Hk : lookup k acc = None).
    { apply lookup_absent_keys. unfold objectKeys in *.
      rewrite map_app in H. simpl in H.
      apply NoDup_remove_2 in H. intros Hin. apply H.
      apply in_or_app. now left. }
    rewrite (obj_set_absent k v acc Hk).
    rewrite IH; rewrite <- app_assoc; [reflexivity | exact H].
Qed.

Lemma fromEntries_NoDup {A : Type} (l : list (string * A)) :
  NoDup (objectKeys l) -> fromEntries l = l.
Proof. intros H. unfold fromEntries. now rewrite fold_obj_set_fresh. Qed.

Lemma NoDup_keys_filter {A : Type} (p : string * A -> bool)
  (o : list (string * A)) :
  NoDup (objectKeys o) -> NoDup (objectKeys (filter p o)).
Proof.
  unfold objectKeys. induction o as [|kv r IH]; simpl; intros H; [constructor|].
  inversion H as [|? ? Hk Hr]; subst.
  destruct (p kv); simpl; [|now apply IH].
  constructor; [|now apply IH].
  intros Hin. apply Hk. apply in_map_iff in Hin as (x & Hx & Hin).
  apply filter_In in Hin as [Hin _]. apply in_map_iff. now exists x.
Qed.

Lemma objectFilter_NoDup {A : Type} (o : list (string * A)) (p : A -> bool) :
  NoDup (objectKeys o) -> objectFilter o p = filter (fun e => p (snd e)) o.
Proof.
  intros H. unfold objectFilter, objectEntries.
  apply fromEntries_NoDup. now apply NoDup_keys_filter.
Qed.


(** X9: on an object (its keys are pairwise different), [objectFilter]
    keeps exactly the entries whose value passes the callback, in their
    order, and [objectMap] without a key callback keeps the keys and
    their order and maps every value with the callback. *)
Theorem object_filter_map_entries {I O : Type} (o : list (string * I))
  (p : I -> bool) (f : I -> string -> O) :
  NoDup (objectKeys o) ->
  objectFilter o p = filter (fun e => p (snd e)) o
  /\ objectMap o f None = map (fun kv => (fst kv, f (snd kv) (fst kv))) o
  /\ objectKeys (objectMap o f None) = objectKeys o.
Proof.
  intros H. split; [now apply objectFilter_NoDup|].
  unfold objectMap, objectEntries.
  assert (E : map (fun entry : string * I =>
                     let '(key, value) := entry in (key, f value key)) o
              = map (fun kv => (fst kv, f (snd kv) (fst kv))) o)
    by (apply map_ext; now intros [k v]).
  rewrite E.
  assert (K : objectKeys (map (fun kv => (fst kv, f (snd kv) (fst kv))) o)
              = objectKeys o)
    by (unfold objectKeys; rewrite map_map; reflexivity).
  rewrite fromEntries_NoDup by now rewrite K.
  now split.
Qed.

Lemma object_filter_map_entries_witness :
  let o := [("a", VNum 1); ("b", VNull); ("c", VNum 3)] in
  let f := fun (v : value) (k : string) => (k, isNullish v) in
  NoDup (objectKeys o)
  /\ objectFilter o nullishFilter = filter (fun e => nullishFilter (snd e)) o
  /\ objectMap o f None = map (fun kv => (fst kv, f (snd kv) (fst kv))) o
  /\ objectKeys (objectMap o f None) = objectKeys o.
Proof.
  intros o f.
  assert (H : NoDup (objectKeys o))
    by (repeat constructor; simpl; intuition discriminate).
  split; [exact H|].
  apply (object_filter_map_entries o nullishFilter f H).
Defined.

(* ================================================================== *)
(** ** The serialised tree and the storage adapter *)

Lemma or_null_json (r : option value) :
  (forall j, r = Some j -> json_tree j = true) -> json_tree (or_null r) = true.
Proof. destruct r as [j|]; simpl; auto. Qed.

Lemma tagged_tree_json (v : value) :
  forall j, tagged_tree v = Some j -> json_tree j = true.
Proof.
  induction v as [| | | | | |l IH|o IH|m IH|l IH|] using value_ind;
    intros j Hj; simpl in Hj; try discriminate;
    injection Hj as <-; try reflexivity.
  - simpl. apply forallb_forall. intros x Hx.
    apply in_map_iff in Hx as (y & <- & Hy).
    rewrite Forall_forall in IH. apply or_null_json, IH, Hy.
  - simpl. apply forallb_forall. intros kx Hkx.
    apply in_flat_map in Hkx as (ky & Hy & Hin).
    rewrite Forall_forall in IH. specialize (IH ky Hy).
    destruct (tagged_tree (snd ky)) as [j'|]; simpl in Hin; [|contradiction].
    destruct Hin as [<-|[]]. now apply IH.
  - simpl. rewrite andb_true_r. apply forallb_forall. intros x Hx.
    apply in_map_iff in Hx as (kv & <- & Hy).
    rewrite Forall_forall in IH. destruct (IH kv Hy) as [Hk Hv].
    simpl. now rewrite (or_null_json _ Hk), (or_null_json _ Hv).
  - simpl. rewrite andb_true_r. apply forallb_forall. intros x Hx.
    apply in_map_iff in Hx as (y & <- & Hy).
    rewrite Forall_forall in IH. apply or_null_json, IH, Hy.
Qed.

(** X10: whatever the value, [JSON.stringify] with [replacer] either
    writes a tree of the JSON grammar (no [undefined], no [NaN], no [Map]
    and no [Set] is left in it) or writes nothing, and it writes nothing
    only for [undefined] itself and for a function. *)
Theorem stringify_json_tree (v : value) :
  match JSON_stringify v with
  | Some j => json_tree j = true
  | None => v = VUndef \/ exists name : string, v = VFun name
  end.
Proof.
  rewrite JSON_stringify_tagged. destruct (tagged_tree v) as [j|] eqn:E.
  - now apply (tagged_tree_json v).
  - destruct v; try discriminate; eauto.
Qed.

Lemma traverse_fails {A B : Type} (f : A -> option B) (l : list A) (x : A) :
  In x l -> f x = None -> traverse f l = None.
Proof.
  induction l as [|y r IH]; intros Hin Hx; [contradiction|].
  simpl. destruct Hin as [->|Hin].
  - now rewrite Hx.
  - destruct (f y); [|reflexivity]. fold (traverse f r).
    now rewrite IH.
Qed.

(** X11: a stored object that has, among its properties, an object
    tagged as a [Map] or a [Set] whose [value] is a number or a boolean
    makes the whole parse fail: [forceParse] answers the text itself. *)
Theorem forceParse_malformed_tag (data : string) (o : obj) (k tag : string)
  (x : value) :
  In (k, VObj [("dataType", VStr tag); ("value", x)]) o ->
  tag = "Map" \/ tag = "Set" ->
  (exists n, x = VNum n) \/ (exists b, x = VBool b) ->
  forceParse data (Some (VObj o)) = VStr data.
Proof.
  intros Hin Htag Hx. unfold forceParse, JSON_parse.
  rewrite internalize_obj.
  rewrite (traverse_fails _ o _ Hin); [reflexivity|].
  cbn [fst snd]. rewrite internalize_obj.
  assert (Hi : forall name, internalize reviver name x = Some x)
    by (intros name; destruct Hx as [[n ->]|[b ->]]; reflexivity).
  cbn [traverse fst snd]. rewrite Hi. cbn [option_map].
  assert (Hd : strict_eq x VUndef = false)
    by (destruct Hx as [[n ->]|[b ->]]; reflexivity).
  cbn [internalize reviver is_object option_map filter snd strict_eq negb].
  rewrite Hd. cbn [negb].
  destruct Htag as [->| ->]; destruct Hx as [[n ->]|[b ->]]; reflexivity.
Qed.

Lemma forceParse_malformed_tag_witness :
  let o := [("a", VObj [("id", VStr "a")]);
            ("b", VObj [("dataType", VStr "Map"); ("value", VNum 5)])] in
  (In ("b", VObj [("dataType", VStr "Map"); ("value", VNum 5)]) o
   /\ ("Map" = "Map" \/ "Map" = "Set")
   /\ ((exists n, VNum 5 = VNum n) \/ (exists b, VNum 5 = VBool b)))
  /\ forceParse "text" (Some (VObj o)) = VStr "text".
Proof.
  intros o.
  assert (H1 : In ("b", VObj [("dataType", VStr "Map"); ("value", VNum 5)]) o)
    by (right; left; reflexivity).
  assert (H2 : "Map" = "Map" \/ "Map" = "Set") by (left; reflexivity).
  assert (H3 : (exists n, VNum 5 = VNum n) \/ (exists b, VNum 5 = VBool b))
    by (left; exists 5%Z; reflexivity).
  split; [repeat split; assumption|].
  apply (forceParse_malformed_tag "text" o "b" "Map" (VNum 5) H1 H2 H3).
Defined.

(** X12: take a reactive object whose keys are pairwise different and
    whose entries that are not nullish are values that JSON represents
    (no [undefined], no [NaN] and no function in them, containers well
    formed, no plain object that carries the tag of a container).  What
    the adapter writes for it, when nullish values are not included, is
    read back by [ls.reactive] as the object without its nullish entries;
    when every entry is nullish the key is removed and [ls.reactive]
    starts from the default value. *)
Theorem persisted_object_reload (key data : string) (o : obj) (d : value) :
  NoDup (objectKeys o) ->
  untagged_json (VObj (filter (fun e => nullishFilter (snd e)) o)) = true ->
  data <> "" ->
  match initWatch_callback key false o with
  | setItem k tree =>
      k = key
      /\ ls_reactive (Some data) tree d
         = VObj (filter (fun e => nullishFilter (snd e)) o)
  | removeItem k =>
      k = key
      /\ ls_reactive None None d = d
      /\ forall kv, In kv o -> isNullish (snd kv) = true
  end.
Proof.
  intros Hnd Hu Hdata. unfold initWatch_callback.
  rewrite objectFilter_NoDup by exact Hnd.
  set (kept := filter (fun e => nullishFilter (snd e)) o) in *.
  destruct (0 <? List.length (objectKeys kept))%nat eqn:E.
  - split; [reflexivity|]. unfold ls_reactive.
    assert (Ht : truthy (VStr data) = true).
    { simpl. destruct (String.eqb_spec data ""); [contradiction | reflexivity]. }
    rewrite Ht. unfold forceParse, JSON_parse. rewrite JSON_stringify_tagged.
    destruct (parse_tagged (VObj kept) Hu) as [Hne Hr].
    destruct (tagged_tree (VObj kept)) as [j|]; [|congruence].
    simpl in Hr. now rewrite Hr.
  - split; [reflexivity|]. split; [reflexivity|].
    intros kv Hkv. apply Nat.ltb_ge in E.
    destruct (isNullish (snd kv)) eqn:En; [reflexivity|].
    assert (Hin : In kv kept)
      by (apply filter_In; split; [exact Hkv | unfold nullishFilter; now rewrite En]).
    destruct kept; [contradiction | simpl in E; lia].
Qed.

Lemma persisted_object_reload_witness :
  let o := [("a", VObj [("id", VStr "a"); ("tags", VSet [VNum 1])]);
            ("b", VNull)] in
  (NoDup (objectKeys o)
   /\ untagged_json (VObj (filter (fun e => nullishFilter (snd e)) o)) = true
   /\ "{}" <> "")
  /\ match initWatch_callback (getKey "ctx") false o with
     | setItem k tree =>
         k = getKey "ctx"
         /\ ls_reactive (Some "{}") tree (VObj [])
            = VObj (filter (fun e => nullishFilter (snd e)) o)
     | removeItem k =>
         k = getKey "ctx"
         /\ ls_reactive None None (VObj []) = VObj []
         /\ forall kv, In kv o -> isNullish (snd kv) = true
     end.
Proof.
  intros o.
  assert (H1 : NoDup (objectKeys o))
    by (repeat constructor; simpl; intuition discriminate).
  assert (H3 : "{}" <> "") by discriminate.
  split; [repeat split; [exact H1 | exact H3]|].
  apply (persisted_object_reload (getKey "ctx") "{}" o (VObj []) H1 eq_refl H3).
Defined.

(* ================================================================== *)
(** ** The rows that a write touches *)

Lemma obj_set_twice {A : Type} (k : string) (v w : A) (o : list (string * A)) :
  obj_set k v (obj_set k w o) = obj_set k v o.
Proof.
  induction o as [|[k' x] r IH]; simpl.
  - now rewrite String.eqb_refl.
  - destruct (String.eqb k k') eqn:E; simpl.
    + now rewrite String.eqb_refl.
    + now rewrite E, IH.
Qed.

Lemma written_refl {A : Type} (id : string) (a : list (string * A)) :
  written id a a.
Proof. now left. Qed.

Lemma written_trans {A : Type} (id : string) (a b c : list (string * A)) :
  written id a b -> written id b c -> written id a c.
Proof.
  intros [->|[e ->]] [->|[e' ->]].
  - now left.
  - right. now exists e'.
  - right. now exists e.
  - right. exists e'. apply obj_set_twice.
Qed.


Section WrittenFacts.
Context {cfg : Config}.

Lemma call_getter_stores (k : string) (target : value) (args : list value)
  (s : manager) :
  recordWithComputeds (snd (call_getter k target args s)) = recordWithComputeds s
  /\ recordRaw (snd (call_getter k target args s)) = recordRaw s
  /\ watches (snd (call_getter k target args s)) = watches s
  /\ created (snd (call_getter k target args s)) = created s.
Proof. unfold call_getter. now destruct (lookup k computedGetters). Qed.

Lemma watch_callback_written (id k : string) (newVal result : value)
  (s : manager) :
  written id (recordWithComputeds s)
    (recordWithComputeds (snd (watch_callback id k newVal result s))).
Proof.
  unfold watch_callback. destruct (isEqual _ newVal); [now left|].
  right. eexists. reflexivity.
Qed.

Lemma watchGetter_written (id k : string) (s : manager) :
  written id (recordWithComputeds s)
    (recordWithComputeds (snd (watchGetter id k s))).
Proof.
  unfold watchGetter. destruct (existingWatcher s id k); [now left|].
  destruct (call_getter_stores k (VStr id) [] s) as (Hc & _).
  destruct (call_getter k (VStr id) [] s) as [newVal s1]. cbn [snd] in Hc.
  pose proof (watch_callback_written id k newVal VNull s1) as Hw.
  destruct (watch_callback id k newVal VNull s1) as [result s2].
  cbn [snd] in *. now rewrite <- Hc.
Qed.

Lemma fire_written (id k : string) (s : manager) :
  written id (recordWithComputeds s) (recordWithComputeds (fire id k s)).
Proof.
  unfold fire. destruct (watching s id k); [|now left].
  destruct (call_getter_stores k (VStr id) [] s) as (Hc & _).
  destruct (call_getter k (VStr id) [] s) as [newVal s1]. cbn [snd] in Hc.
  rewrite <- Hc. apply watch_callback_written.
Qed.






Lemma watchComputedGetters_written (id : string) (s : manager) :
  written id (recordWithComputeds s)
    (recordWithComputeds (watchComputedGetters id s)).
Proof.
  unfold watchComputedGetters. generalize (objectKeys computedGetters).
  intros l. revert s. induction l as [|k r IH]; intros s; simpl.
  - apply written_refl.
  - eapply written_trans; [apply (watchGetter_written id k s) | apply IH].
Qed.

Lemma watchGetter_found (id k : string) (s : manager) :
  existingWatcher s id k = true ->
  watchGetter id k s = (computed_field s id k, s).
Proof. intros H. unfold watchGetter. now rewrite H. Qed.

Lemma watchComputedGetters_found (id : string) (s : manager) :
  (forall k, In k (objectKeys computedGetters) ->
             existingWatcher s id k = true) ->
  watchComputedGetters id s = s.
Proof.
  intros H. unfold watchComputedGetters. apply fold_left_fixed.
  intros k Hk. now rewrite watchGetter_found by now apply H.
Qed.

Lemma watchComputedGetters_watched (id : string) (s : manager) :
  (forall k, In k (objectKeys computedGetters) -> watching s id k = true) ->
  watchComputedGetters id s = s.
Proof.
  intros H. apply watchComputedGetters_found.
  intros k Hk. now apply existingWatcher_watching, H.
Qed.










End WrittenFacts.

(* ================================================================== *)
(** ** The computed fields after a write and after a run of a watch *)

Lemma lookup_map_key {A B : Type} (F : string -> B) (G : list (string * A))
  (k : string) :
  In k (objectKeys G) ->
  lookup k (map (fun kf => (fst kf, F (fst kf))) G) = Some (F k).
Proof.
  induction G as [|[k' a] r IH]; simpl; [contradiction|].
  intros [->|H].
  - now rewrite String.eqb_refl.
  - destruct (String.eqb_spec k k') as [->|Hne]; [reflexivity | now apply IH].
Qed.


Lemma computed_after_write (s' : manager) (id : string) (c : value) (e : obj)
  (store : list (string * option obj)) :
  recordWithComputeds s' = obj_set id (Some (obj_set "computed" c e)) store ->
  computed_of s' id = c.
Proof.
  intros H. unfold computed_of, slot. rewrite H, lookup_obj_set_eq.
  cbn [get_prop]. now rewrite lookup_obj_set_eq.
Qed.



Section ComputedFacts.
Context {cfg : Config}.

Lemma objectMapM_watched (id : string) (r : obj)
  (entries : list (string * Getter)) (s : manager) :
  (forall k, In k (objectKeys entries) -> watching s id k = true) ->
  objectMapM (initComputed id (Some r)) entries s
  = (map (fun kf => (fst kf, computed_field s id (fst kf))) entries, s).
Proof.
  induction entries as [|[k fn] rest IH]; intros H; simpl; [reflexivity|].
  unfold initComputed at 1. cbn [of_record isNullish].
  rewrite (existingWatcher_watching _ _ _ (H k (or_introl eq_refl))).
  cbn [negb].
  rewrite IH; [reflexivity|]. intros k' Hk'. apply H. now right.
Qed.

Lemma setRecordItem_watched (id : string) (v r : obj) (s : manager) :
  raw_of v = Some r ->
  (forall k, In k (objectKeys computedGetters) -> watching s id k = true) ->
  let c := fromEntries
             (map (fun kf : string * Getter =>
                     (fst kf, computed_field s id (fst kf))) computedGetters) in
  let s3 := with_computeds
              (obj_set id (Some (obj_set "computed" (VObj c) r))
                 (recordWithComputeds s))
              (with_raw (obj_set id (Some r) (recordRaw s)) s) in
  setRecordItem id (Some v) s
  = if persist
    then with_cacheMeta
           (obj_set id (Some {| expires := clock s + effective_ttl |})
              (cacheMeta s)) s3
    else s3.
Proof.
  intros Hr Hw c s3. unfold setRecordItem.
  change (if isItemWithComputed v then itemWithComputedToRaw (Some v)
          else Some v) with (raw_of v).
  rewrite Hr. cbv zeta. unfold initComputeds.
  rewrite objectMapM_watched by exact Hw. reflexivity.
Qed.

Lemma watched_currently (id k : string) (s : manager) :
  watching s id k = true -> isCurrentlyWatching s id = true.
Proof.
  unfold watching, isCurrentlyWatching, has_key.
  now destruct (lookup id (watches s)).
Qed.

Lemma set_watched (i r : obj) (s : manager) :
  raw_of i = Some r ->
  (forall k, In k (objectKeys computedGetters) ->
             watching s (js_string (get_prop (VObj r) "id")) k = true) ->
  set (Some i) s
  = setRecordItem (js_string (get_prop (VObj r) "id")) (Some r) s.
Proof.
  intros Hr Hw. unfold set.
  change (if isItemWithComputed i then itemWithComputedToRaw (Some i)
          else Some i) with (raw_of i).
  rewrite Hr. unfold setAndWatchGetters.
  destruct (objectKeys computedGetters) as [|k ks] eqn:E; [reflexivity|].
  rewrite (watched_currently _ k s) by (apply Hw; now left).
  now rewrite !orb_true_r.
Qed.

Lemma field_of_entries (s' : manager) (id k : string) (F : string -> value)
  (r : obj) (store : list (string * option obj)) :
  NoDup (objectKeys computedGetters) ->
  In k (objectKeys computedGetters) ->
  recordWithComputeds s'
  = obj_set id
      (Some (obj_set "computed"
               (VObj (fromEntries
                        (map (fun kf : string * Getter => (fst kf, F (fst kf)))
                           computedGetters))) r)) store ->
  computed_field s' id k = F k.
Proof.
  intros Hnd Hk H. unfold computed_field.
  rewrite (computed_after_write s' id _ _ _ H). cbn [isNullish member].
  rewrite fromEntries_NoDup
    by (unfold objectKeys; rewrite map_map; exact Hnd).
  now rewrite lookup_map_key.
Qed.

(** X13: [set] on a record whose declared fields are all subscribed
    calls no derivation and creates no watch; the computed fields keep
    the values they had (they change when the watches run). *)
Theorem set_keeps_cached_fields (i r : obj) (s : manager) (k : string) :
  NoDup (objectKeys computedGetters) ->
  raw_of i = Some r ->
  (forall f, In f (objectKeys computedGetters) ->
             watching s (js_string (get_prop (VObj r) "id")) f = true) ->
  In k (objectKeys computedGetters) ->
  let id := js_string (get_prop (VObj r) "id") in
  invoked (set (Some i) s) = invoked s
  /\ created (set (Some i) s) = created s
  /\ computed_field (set (Some i) s) id k = computed_field s id k.
Proof.
  intros Hnd Hr Hw Hk id.
  rewrite (set_watched i r s Hr Hw).
  pose proof (setRecordItem_watched id r r s (raw_of_idem i r Hr) Hw) as E.
  cbv zeta in E. fold id. rewrite E.
  split; [now destruct persist|]. split; [now destruct persist|].
  apply (field_of_entries _ id k (computed_field s id) r
           (recordWithComputeds s) Hnd Hk).
  now destruct persist.
Qed.

Lemma member_own (o : obj) (k : string) :
  own_name k = true -> member (VObj o) k = get_prop (VObj o) k.
Proof.
  intros H. cbn [member get_prop]. now rewrite (own_name_inherited _ H).
Qed.





End ComputedFacts.

(* ================================================================== *)
(** ** Writes and the reads that follow them *)


Section WriteReadFacts.
Context {cfg : Config}.






End WriteReadFacts.

(* ================================================================== *)
(** ** Removing records *)

Lemma obj_delete_twice {A : Type} (k : string) (o : list (string * A)) :
  obj_delete k (obj_delete k o) = obj_delete k o.
Proof. apply obj_delete_absent, lookup_obj_delete_eq. Qed.

Lemma obj_delete_comm {A : Type} (k k' : string) (o : list (string * A)) :
  obj_delete k (obj_delete k' o) = obj_delete k' (obj_delete k o).
Proof.
  unfold obj_delete. induction o as [|[x v] r IH]; simpl; [reflexivity|].
  destruct (String.eqb k' x) eqn:E1, (String.eqb k x) eqn:E2; simpl;
    rewrite ?E1, ?E2; simpl; now rewrite IH.
Qed.

Lemma unset_stores (id : string) (s : manager) :
  unset id s
  = {| recordWithComputeds := obj_delete id (recordWithComputeds s);
       recordRaw := obj_delete id (recordRaw s);
       cacheMeta := obj_delete id (cacheMeta s);
       watches := watches s; clock := clock s;
       created := created s; invoked := invoked s |}.
Proof.
  unfold unset, with_cacheMeta, with_raw, with_computeds. simpl.
  now rewrite !obj_delete_obj_set.
Qed.

(** X19: [unset] twice for the same id is [unset] once, and two [unset]s
    commute. *)
Theorem unset_idempotent_commutes (id id' : string) (s : manager) :
  unset id (unset id s) = unset id s
  /\ unset id (unset id' s) = unset id' (unset id s).
Proof.
  rewrite !unset_stores. simpl. rewrite !obj_delete_twice.
  split; [reflexivity|]. f_equal; apply obj_delete_comm.
Qed.

Lemma delete_all_empty {A : Type} (l : list string) :
  forall o : list (string * A),
    (forall kv, In kv o -> In (fst kv) l) ->
    fold_left (fun o id => obj_delete id o) l o = [].
Proof.
  induction l as [|id l IH]; intros o H; simpl.
  - destruct o as [|kv o]; [reflexivity|]. destruct (H kv (or_introl eq_refl)).
  - apply IH. intros kv Hkv. unfold obj_delete in Hkv.
    apply filter_In in Hkv as [Hin Hne]. cbv beta in Hne.
    destruct (H kv Hin) as [Heq|Hl]; [|exact Hl].
    rewrite Heq, String.eqb_refl in Hne. discriminate.
Qed.

Lemma lookup_obj_delete_none {A : Type} (k k' : string) (o : list (string * A)) :
  lookup k o = None -> lookup k (obj_delete k' o) = None.
Proof.
  intros H. destruct (String.eqb_spec k k') as [->|Hne].
  - apply lookup_obj_delete_eq.
  - rewrite lookup_obj_delete_neq; [exact H | congruence].
Qed.

Lemma delete_all_lookup {A : Type} (l : list string) (id : string) :
  forall o : list (string * A),
    In id l \/ lookup id o = None ->
    lookup id (fold_left (fun o id => obj_delete id o) l o) = None.
Proof.
  induction l as [|k l IH]; intros o H; simpl.
  - destruct H as [[]|H]. exact H.
  - apply IH. destruct H as [[->|H]|H].
    + right. apply lookup_obj_delete_eq.
    + now left.
    + right. now apply lookup_obj_delete_none.
Qed.

Lemma fold_unset_stores (l : list string) :
  forall s : manager,
    let s' := fold_left (fun s id => unset id s) l s in
    recordWithComputeds s'
    = fold_left (fun o id => obj_delete id o) l (recordWithComputeds s)
    /\ recordRaw s' = fold_left (fun o id => obj_delete id o) l (recordRaw s)
    /\ cacheMeta s' = fold_left (fun o id => obj_delete id o) l (cacheMeta s)
    /\ watches s' = watches s
    /\ created s' = created s.
Proof.
  induction l as [|id l IH]; intros s; cbv zeta; cbn [fold_left];
    [now repeat split|].
  destruct (IH (unset id s)) as (H1 & H2 & H3 & H4 & H5). cbv zeta in *.
  rewrite H1, H2, H3, H4, H5, unset_stores. cbn. now repeat split.
Qed.

(** X20: [reset] leaves the computed store empty and [length] at zero,
    removes from the raw store and from the cache metadata every id that
    the computed store had, and keeps the subscription table as it
    was. *)
Theorem reset_empties (s : manager) :
  recordWithComputeds (reset s) = []
  /\ manager_length (reset s) = 0
  /\ Forall (fun id => lookup id (recordRaw (reset s)) = None
                       /\ lookup id (cacheMeta (reset s)) = None)
       (objectKeys (recordWithComputeds s))
  /\ watches (reset s) = watches s
  /\ created (reset s) = created s.
Proof.
  unfold reset.
  destruct (fold_unset_stores (objectKeys (recordWithComputeds s)) s)
    as (H1 & H2 & H3 & H4 & H5).
  cbv zeta in *.
  assert (E : recordWithComputeds
                (fold_left (fun s id => unset id s)
                   (objectKeys (recordWithComputeds s)) s) = []).
  { rewrite H1. apply delete_all_empty. intros kv Hkv.
    unfold objectKeys. now apply in_map. }
  split; [exact E|]. split; [unfold manager_length; now rewrite E|].
  split; [|now split].
  apply Forall_forall. intros id Hid. rewrite H2, H3.
  split; apply delete_all_lookup; now left.
Qed.

Section ReplaceFacts.
Context {cfg : Config}.





End ReplaceFacts.

(* ================================================================== *)
(** ** The reading surface: [forEach], [filter], [filterRaw], [length] *)

Lemma fold_flat_map_records {A : Type} (callback : obj -> A -> A)
  (rows : list (string * option obj)) (a : A) :
  fold_left (fun a (item : option obj) =>
               match item with Some r => callback r a | None => a end)
    (map snd rows) a
  = fold_left (fun a r => callback r a)
      (flat_map (fun kv : string * option obj =>
                   match snd kv with Some r => [r] | None => [] end) rows) a.
Proof.
  revert a. induction rows as [|[k [r|]] rows IH]; intros a; simpl; auto.
Qed.

Lemma length_records (rows : list (string * option obj)) :
  List.length
    (flat_map (fun kv : string * option obj =>
                 match snd kv with Some r => [r] | None => [] end) rows)
  = List.length
      (filter (fun kv => negb (isNullish (of_record (snd kv)))) rows).
Proof.
  induction rows as [|[k [r|]] rows IH]; simpl; auto.
Qed.

(** X23: [forEach] calls back once for every record of the computed
    store, in the order of its keys, and never for a [null] entry; the
    number of calls is [length]. *)
Theorem forEach_visits_records {A : Type} (callback : obj -> A -> A)
  (s : manager) (a : A) :
  forEach callback s a = fold_left (fun a r => callback r a) (records s) a
  /\ List.length (records s) = manager_length s.
Proof.
  split; [apply fold_flat_map_records | apply length_records].
Qed.

Lemma filter_ext_rows {A : Type} (p q : A -> bool) (l : list A) :
  (forall x, p x = q x) -> filter p l = filter q l.
Proof.
  intros H. induction l as [|x l IH]; simpl; [reflexivity|].
  now rewrite H, IH.
Qed.

(** X24: on a computed store whose keys are pairwise different,
    [filter] answers the rows whose record passes the predicate, in their
    order; a [null] entry never passes, and the predicate that accepts
    everything gives [length] rows. *)
Theorem manager_filter_rows (p : obj -> bool) (s : manager) :
  NoDup (objectKeys (recordWithComputeds s)) ->
  manager_filter p s
  = filter (fun kv => match snd kv with Some r => p r | None => false end)
      (recordWithComputeds s)
  /\ List.length (manager_filter (fun _ => true) s) = manager_length s.
Proof.
  intros Hnd. unfold manager_filter, manager_length.
  rewrite !objectFilter_NoDup by exact Hnd. split.
  - apply filter_ext_rows. now intros [k [r|]].
  - f_equal. apply filter_ext_rows. now intros [k [r|]].
Qed.

Lemma manager_filter_rows_witness :
  let s := unset "b"
             (set (cfg := cfg_double) (Some (record_a 2))
                (snd (get (cfg := cfg_double) "z" (empty_manager 0)))) in
  let p := fun r : obj => strict_eq (get_prop (VObj r) "x") (VNum 2) in
  NoDup (objectKeys (recordWithComputeds s))
  /\ manager_filter p s
     = filter (fun kv => match snd kv with Some r => p r | None => false end)
         (recordWithComputeds s)
  /\ List.length (manager_filter (fun _ => true) s) = manager_length s.
Proof.
  intros s p.
  assert (H : NoDup (objectKeys (recordWithComputeds s)))
    by (repeat constructor; simpl; intuition discriminate).
  split; [exact H|]. apply (manager_filter_rows p s H).
Defined.


Section TombstoneViews.
Context {cfg : Config}.


End TombstoneViews.


(* ================================================================== *)
(** ** The exposed getters and [resetComputed] *)

Section GetterFacts.
Context {cfg : Config}.



(** X27: [resetComputed] changes nothing when every declared field of
    every key of the computed store is subscribed: the manager after the
    call is the manager before it. *)
Theorem resetComputed_subscribed (s : manager) :
  (forall id k, In id (objectKeys (recordWithComputeds s)) ->
                In k (objectKeys computedGetters) ->
                watching s id k = true) ->
  resetComputed s = s.
Proof.
  intros H. unfold resetComputed. apply fold_left_fixed.
  intros id Hid. apply watchComputedGetters_watched.
  intros k Hk. now apply H.
Qed.

End GetterFacts.


Lemma resetComputed_subscribed_witness :
  let s := set (cfg := cfg_double) (Some (record_a 2)) (empty_manager 0) in
  (forall id k, In id (objectKeys (recordWithComputeds s)) ->
                In k (objectKeys (computedGetters (Config := cfg_double))) ->
                watching s id k = true)
  /\ resetComputed (cfg := cfg_double) s = s.
Proof.
  intros s.
  assert (H : forall id k, In id (objectKeys (recordWithComputeds s)) ->
                In k (objectKeys (computedGetters (Config := cfg_double))) ->
                watching s id k = true).
  { intros id k [<-|[]] [<-|[]]. reflexivity. }
  split; [exact H|].
  apply (resetComputed_subscribed (cfg := cfg_double) s H).
Defined.

(* ================================================================== *)
(** ** The records of [meta.initial] *)

Section InitialFacts.
Context {cfg : Config}.





End InitialFacts.


(* ================================================================== *)
(** ** Stripping the [computed] member *)

(** X29: [itemWithComputedToRaw] is idempotent; what it answers, when
    not [null], has at least one property, has no [computed] property and
    is not recognised by [isItemWithComputed]. *)
Theorem itemWithComputedToRaw_idempotent (x : option obj) :
  itemWithComputedToRaw (itemWithComputedToRaw x) = itemWithComputedToRaw x
  /\ match itemWithComputedToRaw x with
     | Some r => r <> [] /\ lookup "computed" r = None
                 /\ isItemWithComputed r = false
     | None => True
     end.
Proof.
  destruct x as [o|]; [|now split]. unfold itemWithComputedToRaw at 2 3 4.
  destruct (List.length (map snd (obj_delete "computed" o)) =? 0)%nat eqn:E;
    [now split|].
  assert (Hl : lookup "computed" (obj_delete "computed" o) = None)
    by apply lookup_obj_delete_eq.
  split.
  - unfold itemWithComputedToRaw. rewrite obj_delete_twice. now rewrite E.
  - split; [|split; [exact Hl|]].
    + intros H. rewrite H in E. discriminate.
    + unfold isItemWithComputed, has_key. now rewrite Hl, andb_false_r.
Qed.

(* ================================================================== *)
(** ** [autoState]: the generated setters *)

Lemma lookup_app_first {A : Type} (k : string) (a b : list (string * A)) :
  lookup k (a ++ b)
  = match lookup k a with Some x => Some x | None => lookup k b end.
Proof.
  induction a as [|[k' v] r IH]; simpl; [reflexivity|].
  now destruct (String.eqb k k').
Qed.

Lemma lookup_assign {A : Type} (k : string) (l : list (string * A)) :
  forall t : list (string * A),
    lookup k (fold_left (fun t kv => obj_set (fst kv) (snd kv) t) l t)
    = match lookup k (rev l) with Some x => Some x | None => lookup k t end.
Proof.
  induction l as [|[k' v] l IH]; intros t; simpl; [reflexivity|].
  rewrite IH, lookup_app_first. destruct (lookup k (rev l)); [reflexivity|].
  simpl. destruct (String.eqb_spec k k') as [->|Hne].
  - apply lookup_obj_set_eq.
  - apply lookup_obj_set_neq. congruence.
Qed.

(** X30: the members of [autoState(initialState).set].  The member
    [value] merges its argument into the state (the last binding of a key
    in the argument wins, keys that the argument lacks stay) and does
    nothing when the argument is a number; every other key of
    [initialState] has a member that assigns that key and no other; there
    is no other member.  A field of the state that is itself named
    [value] has no setter of its own. *)
Theorem autoState_setters (initialState : obj) (name : string) :
  match autoState_set initialState name with
  | Some f =>
      if String.eqb name "value"
      then (forall (val : value) (st : obj) (k : string),
              lookup k (f val st)
              = match lookup k (rev (spread val)) with
                | Some x => Some x
                | None => lookup k st
                end)
           /\ (forall (n : Z) (st : obj), f (VNum n) st = st)
      else has_key name initialState = true
           /\ (forall (v : value) (st : obj) (k : string),
                 lookup k (f v st)
                 = if String.eqb k name then Some v else lookup k st)
  | None => String.eqb name "value" = false
            /\ has_key name initialState = false
  end.
Proof.
  unfold autoState_set. destruct (String.eqb name "value") eqn:E.
  - split; [|reflexivity]. intros val st k. apply lookup_assign.
  - destruct (has_key name initialState) eqn:Hk; [|now split].
    split; [reflexivity|]. intros v st k.
    destruct (String.eqb_spec k name) as [->|Hne].
    + apply lookup_obj_set_eq.
    + apply lookup_obj_set_neq. congruence.
Qed.

(* ================================================================== *)
(** ** Instances *)






Lemma set_keeps_cached_fields_witness :
  let s := set (cfg := cfg_double) (Some (record_a 2)) (empty_manager 0) in
  let i := record_a 5 in
  (NoDup (objectKeys (computedGetters (Config := cfg_double)))
   /\ raw_of i = Some i
   /\ (forall f, In f (objectKeys (computedGetters (Config := cfg_double))) ->
                 watching s (js_string (get_prop (VObj i) "id")) f = true)
   /\ In "double" (objectKeys (computedGetters (Config := cfg_double))))
  /\ invoked (set (cfg := cfg_double) (Some i) s) = invoked s
  /\ created (set (cfg := cfg_double) (Some i) s) = created s
  /\ computed_field (set (cfg := cfg_double) (Some i) s) "a" "double"
     = computed_field s "a" "double".
Proof.
  intros s i.
  assert (H1 : NoDup (objectKeys (computedGetters (Config := cfg_double))))
    by (repeat constructor; simpl; tauto).
  assert (H2 : forall f,
             In f (objectKeys (computedGetters (Config := cfg_double))) ->
             watching s (js_string (get_prop (VObj i) "id")) f = true)
    by (intros f [<-|[]]; reflexivity).
  assert (H3 : In "double" (objectKeys (computedGetters (Config := cfg_double))))
    by (left; reflexivity).
  split; [repeat split; assumption|].
  apply (set_keeps_cached_fields (cfg := cfg_double) i i s "double"
           H1 eq_refl H2 H3).
Defined.


